(** * SequencerGUI: the [Sequence] data model (SequencerGUI/sequence.cpp)

    A shallow embedding of [Sequence] and of the part of [SequencePoint] it
    relies on, followed by the properties of the two that the specification
    states.

    - C++ [double] is IEEE 754 binary64, taken from the Standard Library's
      [SpecFloat] at precision 53 and maximal exponent 1024: comparisons with
      NaN are false, [+0.0 == -0.0].
    - C++ [int] is a 32-bit two's complement integer, carried as a [Z];
      arithmetic on the values of points wraps ([Int.wrap]).  Positions in a
      [QList] or [QVector] are [Z] as well, and are not wrapped: a container
      holds far fewer than [2^31] elements.  An access outside the container
      is undefined behaviour in the source and is [None] here.
    - Qt signals are recorded in the order they are emitted. *)

From Stdlib Require Import ZArith List Bool String Lia.
From Stdlib Require Import Floats.SpecFloat.
Import ListNotations.
Local Open Scope Z_scope.

(** ** C++ [double] *)

Module Double.

Definition double := spec_float.

Definition prec : Z := 53.
Definition emax : Z := 1024.

Definition compare : double -> double -> option comparison := SFcompare.
(** [a < b], [a <= b] and [a == b] on doubles. *)
Definition ltb : double -> double -> bool := SFltb.
Definition leb : double -> double -> bool := SFleb.
Definition eqb : double -> double -> bool := SFeqb.
Definition add : double -> double -> double := SFadd prec emax.
Definition div : double -> double -> double := SFdiv prec emax.

(** The literals [0.0] and [2.0]. *)
Definition zero : double := S754_zero false.
Definition two : double := S754_finite false 4503599627370496 (-51).

(** [std::min(a, b)] is [(b < a) ? b : a], [std::max(a, b)] is
    [(a < b) ? b : a]. *)
Definition std_min (a b : double) : double := if ltb b a then b else a.
Definition std_max (a b : double) : double := if ltb a b then b else a.

(** The conversion of an [int] to a [double]; it is exact, an [int] has at
    most 32 significant bits. *)
Definition of_pos (p : positive) : positive * Z :=
  let n := Z.log2 (Zpos p) + 1 in
  (Z.to_pos (Zpos p * 2 ^ (prec - n)), n - prec).

Definition of_int (z : Z) : double :=
  match z with
  | Z0 => S754_zero false
  | Zpos p => let '(m, e) := of_pos p in S754_finite false m e
  | Zneg p => let '(m, e) := of_pos p in S754_finite true m e
  end.

(** The integer a [double] holds, when it holds one. *)
Definition to_Z (d : double) : option Z :=
  match d with
  | S754_zero _ => Some 0
  | S754_finite s m e =>
      let sign (v : Z) := if s then - v else v in
      if 0 <=? e then Some (sign (Zpos m * 2 ^ e))
      else if Zpos m mod 2 ^ (- e) =? 0 then Some (sign (Zpos m / 2 ^ (- e)))
      else None
  | _ => None
  end.

End Double.

Abbreviation double := Double.double.

(** ** C++ [int] *)

Module Int.

Definition min_int : Z := - 2 ^ 31.
Definition max_int : Z := 2 ^ 31 - 1.

Definition in_range (z : Z) : bool := (min_int <=? z) && (z <=? max_int).

Definition wrap (z : Z) : Z := (z + 2 ^ 31) mod 2 ^ 32 - 2 ^ 31.

Definition add (a b : Z) : Z := wrap (a + b).
(** [a / b] truncates towards zero. *)
Definition div (a b : Z) : Z := wrap (Z.quot a b).

Definition std_min (a b : Z) : Z := if b <? a then b else a.
Definition std_max (a b : Z) : Z := if a <? b then b else a.

(** [QJsonValue::toInt]: the value of a number that is an integer in the
    range of [int]. *)
Definition of_double (d : double) : option Z :=
  match Double.to_Z d with
  | Some z => if in_range z then Some z else None
  | None => None
  end.

End Int.

(** ** Containers: [QVector] and [QList] *)

Section Containers.
Context {A : Type}.

Definition length_ (l : list A) : Z := Z.of_nat (List.length l).

Definition isEmpty (l : list A) : bool :=
  match l with [] => true | _ => false end.

(** [l[i]]; outside [0 <= i < l.length()] the access is undefined. *)
Definition index (l : list A) (i : Z) : option A :=
  if (0 <=? i) && (i <? length_ l) then nth_error l (Z.to_nat i) else None.

Fixpoint update (n : nat) (v : A) (l : list A) {struct l} : list A :=
  match l, n with
  | [], _ => []
  | _ :: l', O => v :: l'
  | x :: l', S n' => x :: update n' v l'
  end.

(** [l[i] = v]. *)
Definition assign (l : list A) (i : Z) (v : A) : option (list A) :=
  if (0 <=? i) && (i <? length_ l) then Some (update (Z.to_nat i) v l)
  else None.

(** [QList::insert(i, v)]: prepends when [i <= 0], appends when
    [i >= size()]. *)
Definition insert (l : list A) (i : Z) (v : A) : list A :=
  firstn (Z.to_nat i) l ++ v :: skipn (Z.to_nat i) l.

(** [QList::removeAt(i)]; [i] must be a valid position. *)
Definition removeAt (l : list A) (i : Z) : option (list A) :=
  if (0 <=? i) && (i <? length_ l)
  then Some (firstn (Z.to_nat i) l ++ skipn (Z.to_nat (i + 1)) l)
  else None.

(** [QVector::operator==] over an equality test of the elements. *)
Fixpoint vector_eqb (eqb : A -> A -> bool) (l1 l2 : list A) : bool :=
  match l1, l2 with
  | [], [] => true
  | x :: l1', y :: l2' => eqb x y && vector_eqb eqb l1' l2'
  | _, _ => false
  end.

End Containers.

(** ** JSON values ([QJsonValue], [QJsonObject], [QJsonDocument]) *)

#[local] Unset Elimination Schemes.
Inductive QJsonValue : Type :=
| JNull
| JBool (b : bool)
| JDouble (d : double)
| JString (s : string)
| JArray (a : list QJsonValue)
| JObject (o : list (string * QJsonValue)).
#[local] Set Elimination Schemes.

Definition QJsonObject : Type := list (string * QJsonValue).

Inductive QJsonDocument : Type :=
| DocNull
| DocArray (a : list QJsonValue)
| DocObject (o : QJsonObject).

Fixpoint value (o : QJsonObject) (key : string) : option QJsonValue :=
  match o with
  | [] => None
  | (k, v) :: o' => if String.eqb k key then Some v else value o' key
  end.

(** The doubles of an array of numbers. *)
Fixpoint numbers (a : list QJsonValue) : option (list double) :=
  match a with
  | [] => Some []
  | JDouble d :: a' => option_map (cons d) (numbers a')
  | _ :: _ => None
  end.

(** ** [SequencePoint] *)

Record SequencePoint : Type := mkPoint {
  point : list double;
  duration : Z;
  timeToTarget : Z
}.

Definition with_point (p : SequencePoint) (v : list double) : SequencePoint :=
  mkPoint v (duration p) (timeToTarget p).
Definition with_duration (p : SequencePoint) (d : Z) : SequencePoint :=
  mkPoint (point p) d (timeToTarget p).
Definition with_timeToTarget (p : SequencePoint) (t : Z) : SequencePoint :=
  mkPoint (point p) (duration p) t.

(** Modelled from the spec: [SequencePoint::operator==] (sequencepoint.h and
    sequencepoint.cpp are not among the sources), "Equality: structural (all
    fields equal)"; the coordinates are compared as [QVector<double>]
    compares them, with [==] on [double]. *)
Definition SequencePoint_eqb (p q : SequencePoint) : bool :=
  vector_eqb Double.eqb (point p) (point q)
  && (duration p =? duration q)
  && (timeToTarget p =? timeToTarget q).

(** Modelled from the spec: [SequencePoint::fromJson], "parses point (array
    of numbers), duration (int), timeToTarget (int) from a JSON object; fails
    if any required field is missing or of the wrong type".  [None] is the
    call returning false. *)
Definition SequencePoint_fromJson (o : QJsonObject) : option SequencePoint :=
  match value o "point", value o "duration", value o "timeToTarget" with
  | Some (JArray a), Some (JDouble d), Some (JDouble t) =>
      match numbers a, Int.of_double d, Int.of_double t with
      | Some xs, Some d', Some t' => Some (mkPoint xs d' t')
      | _, _, _ => None
      end
  | _, _, _ => None
  end.

(** Modelled from the spec: [SequencePoint::toJson], "inverse serialization;
    always succeeds", to the object
    [{"point": [number, ...], "duration": integer, "timeToTarget": integer}]. *)
Definition SequencePoint_toJson (p : SequencePoint) : QJsonObject :=
  [ ("duration"%string, JDouble (Double.of_int (duration p)));
    ("point"%string, JArray (map JDouble (point p)));
    ("timeToTarget"%string, JDouble (Double.of_int (timeToTarget p))) ].

(** ** [Sequence] *)

Inductive Signal : Type :=
| curPointChanged
| numPointsChanged
| curPointValuesChanged
| pointValuesChanged (pos : Z)
| isModifiedChanged.

(** [m_pointDim] is an [unsigned int]; the source only compares it, after the
    cast [int(m_pointDim)], with lengths of vectors and resizes vectors to
    it, so it is a [nat] here (a value within the range of [int]). *)
Record Sequence : Type := mkSequence {
  m_pointDim : nat;
  m_min : SequencePoint;
  m_max : SequencePoint;
  m_sequence : list SequencePoint;
  m_curPoint : Z;
  m_isModified : bool
}.

Definition with_sequence (l : list SequencePoint) (s : Sequence) : Sequence :=
  mkSequence (m_pointDim s) (m_min s) (m_max s) l (m_curPoint s)
             (m_isModified s).
Definition with_curPoint (c : Z) (s : Sequence) : Sequence :=
  mkSequence (m_pointDim s) (m_min s) (m_max s) (m_sequence s) c
             (m_isModified s).
Definition with_isModified (b : bool) (s : Sequence) : Sequence :=
  mkSequence (m_pointDim s) (m_min s) (m_max s) (m_sequence s) (m_curPoint s)
             b.

(** Modelled from the spec: [isValid()], which sequence.h (not among the
    sources) defines, "a Sequence is valid iff pointDim > 0". *)
Definition isValid (s : Sequence) : bool := negb (Nat.eqb (m_pointDim s) 0).

(** *** Member functions: the object, the signals emitted, undefined accesses *)

Definition Op (A : Type) : Type :=
  Sequence -> option (A * Sequence * list Signal).

Definition ret {A : Type} (a : A) : Op A := fun s => Some (a, s, []).

Definition bind {A B : Type} (m : Op A) (f : A -> Op B) : Op B :=
  fun s =>
    match m s with
    | None => None
    | Some (a, s1, e1) =>
        match f a s1 with
        | None => None
        | Some (b, s2, e2) => Some (b, s2, e1 ++ e2)
        end
    end.

Definition this : Op Sequence := fun s => Some (s, s, []).
Definition store (f : Sequence -> Sequence) : Op unit :=
  fun s => Some (tt, f s, []).
Definition emit (sg : Signal) : Op unit := fun s => Some (tt, s, [sg]).
Definition defined {A : Type} (o : option A) : Op A :=
  fun s => match o with Some a => Some (a, s, []) | None => None end.

Declare Scope op_scope.
Delimit Scope op_scope with op.
Notation "x <- m ;; k" := (bind m (fun x => k))
  (at level 61, m at next level, right associativity) : op_scope.
Notation "m ;; k" := (bind m (fun _ => k))
  (at level 61, right associativity) : op_scope.
Local Open Scope op_scope.

(** The object and the signals a call leaves behind. *)
Definition run {A : Type} (m : Op A) (s : Sequence)
  : option (Sequence * list Signal) :=
  match m s with
  | Some (_, s', e) => Some (s', e)
  | None => None
  end.

(** *** [validatePoint] *)

(** Lines 551-558: the coordinates are brought to [m_pointDim] entries. *)
Definition resized (dim : nat) (pt : list double) : list double :=
  if (List.length pt <? dim)%nat
  then pt ++ repeat Double.zero (dim - List.length pt)
  else if (dim <? List.length pt)%nat then firstn dim pt
  else pt.

(** Lines 565-567: [p.point[i] = std::min(m_max.point[i],
    std::max(m_min.point[i], p.point[i]))] for every [i]; reading a bound
    that has no entry [i] is undefined. *)
Fixpoint limited (lo hi pt : list double) {struct pt}
  : option (list double) :=
  match pt with
  | [] => Some []
  | x :: pt' =>
      match lo, hi with
      | l :: lo', h :: hi' =>
          option_map (cons (Double.std_min h (Double.std_max l x)))
                     (limited lo' hi' pt')
      | _, _ => None
      end
  end.

Definition validatePoint (s : Sequence) (p : SequencePoint) (skipLimits : bool)
  : option SequencePoint :=
  let pt := resized (m_pointDim s) (point p) in
  if skipLimits then Some (with_point p pt)
  else
    match limited (point (m_min s)) (point (m_max s)) pt with
    | Some pt' =>
        Some (mkPoint pt'
                (Int.std_min (duration (m_max s))
                   (Int.std_max (duration (m_min s)) (duration p)))
                (Int.std_min (timeToTarget (m_max s))
                   (Int.std_max (timeToTarget (m_min s)) (timeToTarget p))))
    | None => None
    end.

(** The constructor: both bounds go through [validatePoint(., true)], which
    reads [m_pointDim] alone. *)
Definition Sequence_new (pointDim : nat) (minVals maxVals : SequencePoint)
  : Sequence :=
  mkSequence pointDim
    (with_point minVals (resized pointDim (point minVals)))
    (with_point maxVals (resized pointDim (point maxVals)))
    [] (-1) false.

Definition sequenceModified : Op unit :=
  s <- this ;;
  if negb (m_isModified s)
  then store (with_isModified true) ;; emit isModifiedChanged
  else ret tt.

Definition setCurPoint (p : Z) : Op unit :=
  s <- this ;;
  if isEmpty (m_sequence s) then ret tt
  else
    let p := if p <? 0 then 0
             else if p >=? length_ (m_sequence s)
                  then length_ (m_sequence s) - 1 else p in
    if negb (p =? m_curPoint s)
    then store (with_curPoint p) ;; emit curPointChanged
    else ret tt.

(** *** What sequencepoint.h and sequencepoint.cpp provide

    Neither file is among the sources.  [Sequence] uses five things they
    define: the two [int]s a default-constructed [SequencePoint] holds (its
    [QVector] is empty), [fromJson] ([None] when it returns false; a call
    that succeeds sets all three fields), [toJson] and [operator==]. *)
Class SequencePointImpl : Type := {
  default_duration : Z;
  default_timeToTarget : Z;
  fromJson : QJsonObject -> option SequencePoint;
  toJson : SequencePoint -> QJsonObject;
  equal : SequencePoint -> SequencePoint -> bool
}.

(** Modelled from the spec: the members of [SequencePoint] as sections 3, 4.1
    and 6 of the specification describe them, over the two default [int]s. *)
Definition SequencePoint_modelled (d t : Z) : SequencePointImpl :=
  {| default_duration := d;
     default_timeToTarget := t;
     fromJson := SequencePoint_fromJson;
     toJson := SequencePoint_toJson;
     equal := SequencePoint_eqb |}.

Section Members.
Context {impl : SequencePointImpl}.

(** [SequencePoint()]. *)
Definition SequencePoint_new : SequencePoint :=
  mkPoint [] default_duration default_timeToTarget.

(** Modelled from the spec: [Sequence()], the constructor with the default
    arguments sequence.h (not among the sources) gives it, "a default
    (invalid, pointDim=0) Sequence", its bounds default-constructed. *)
Definition Sequence_default : Sequence :=
  Sequence_new 0 SequencePoint_new SequencePoint_new.

(** Lines 38-41: [n] entries [(max.point[i] + min.point[i]) / 2.0]. *)
Fixpoint midpoints (n : nat) (hi lo : list double) {struct n}
  : option (list double) :=
  match n with
  | O => Some []
  | S n' =>
      match hi, lo with
      | h :: hi', l :: lo' =>
          option_map (cons (Double.div (Double.add h l) Double.two))
                     (midpoints n' hi' lo')
      | _, _ => None
      end
  end.

Definition defaultSequencePoint (s : Sequence) : option SequencePoint :=
  let p := SequencePoint_new in
  let p := with_duration p
             (Int.div (Int.add (duration (m_max s)) (duration (m_min s))) 2)
  in
  match midpoints (m_pointDim s) (point (m_max s)) (point (m_min s)) with
  | Some pt => Some (with_point p pt)
  | None => None
  end.

Definition insertAfterCurrent : Op unit :=
  s <- this ;;
  if negb (isValid s) then ret tt
  else
    (if m_curPoint s =? -1
     then
       d <- defined (defaultSequencePoint s) ;;
       p <- defined (validatePoint s d false) ;;
       store (with_sequence (m_sequence s ++ [p]))
     else
       c <- defined (index (m_sequence s) (m_curPoint s)) ;;
       p <- defined (validatePoint s c false) ;;
       store (with_sequence (insert (m_sequence s) (m_curPoint s + 1) p))) ;;
    emit numPointsChanged ;;
    store (fun s => with_curPoint (m_curPoint s + 1) s) ;;
    emit curPointChanged ;;
    sequenceModified.

Definition insertBeforeCurrent : Op unit :=
  s <- this ;;
  if negb (isValid s) then ret tt
  else
    (if m_curPoint s =? -1
     then
       d <- defined (defaultSequencePoint s) ;;
       p <- defined (validatePoint s d false) ;;
       store (with_sequence (m_sequence s ++ [p])) ;;
       store (with_curPoint 0) ;;
       emit curPointChanged
     else
       c <- defined (index (m_sequence s) (m_curPoint s)) ;;
       p <- defined (validatePoint s c false) ;;
       store (with_sequence (insert (m_sequence s) (m_curPoint s) p))) ;;
    emit numPointsChanged ;;
    emit curPointValuesChanged ;;
    sequenceModified.

Definition append : Op unit :=
  s <- this ;;
  if negb (isValid s) then ret tt
  else
    p <- (if m_curPoint s =? -1 then defined (defaultSequencePoint s)
          else defined (index (m_sequence s) (m_curPoint s))) ;;
    p <- defined (validatePoint s p false) ;;
    store (with_sequence (m_sequence s ++ [p])) ;;
    emit numPointsChanged ;;
    store (fun s => with_curPoint (length_ (m_sequence s) - 1) s) ;;
    emit curPointChanged ;;
    sequenceModified.

Definition removeCurrent : Op unit :=
  s <- this ;;
  if negb (isValid s) || (m_curPoint s =? -1) then ret tt
  else
    l <- defined (removeAt (m_sequence s) (m_curPoint s)) ;;
    store (with_sequence l) ;;
    emit numPointsChanged ;;
    (if m_curPoint s >=? length_ l
     then store (with_curPoint (length_ l - 1)) ;; emit curPointChanged
     else emit curPointValuesChanged) ;;
    sequenceModified.

Definition clear : Op unit :=
  s <- this ;;
  if negb (isValid s) then ret tt
  else
    (if negb (isEmpty (m_sequence s))
     then
       store (with_sequence []) ;;
       emit numPointsChanged ;;
       store (with_curPoint (-1)) ;;
       emit curPointChanged
     else ret tt) ;;
    sequenceModified.

(** The tail the four setters share once the stored value has changed. *)
Definition valuesChanged (pos : Z) : Op unit :=
  emit (pointValuesChanged pos) ;;
  s <- this ;;
  (if pos =? m_curPoint s then emit curPointValuesChanged else ret tt) ;;
  sequenceModified.

Definition setPoint_at (pos : Z) (p : SequencePoint) : Op unit :=
  s <- this ;;
  if negb (isValid s) then ret tt
  else
    old <- defined (index (m_sequence s) pos) ;;
    p' <- defined (validatePoint s p false) ;;
    l <- defined (assign (m_sequence s) pos p') ;;
    store (with_sequence l) ;;
    if equal old p' then ret tt else valuesChanged pos.

Definition setPoint (p : SequencePoint) : Op unit :=
  s <- this ;;
  if m_curPoint s <? 0 then ret tt else setPoint_at (m_curPoint s) p.

Definition setPointCoordinate_at (pos c : Z) (v : double) : Op unit :=
  s <- this ;;
  if negb (isValid s) then ret tt
  else
    sp <- defined (index (m_sequence s) pos) ;;
    old <- defined (index (point sp) c) ;;
    hi <- defined (index (point (m_max s)) c) ;;
    lo <- defined (index (point (m_min s)) c) ;;
    let new := Double.std_min hi (Double.std_max lo v) in
    pt <- defined (assign (point sp) c new) ;;
    l <- defined (assign (m_sequence s) pos (with_point sp pt)) ;;
    store (with_sequence l) ;;
    if Double.eqb old new then ret tt else valuesChanged pos.

Definition setPointCoordinate (c : Z) (v : double) : Op unit :=
  s <- this ;;
  if m_curPoint s <? 0 then ret tt
  else setPointCoordinate_at (m_curPoint s) c v.

Definition setDuration_at (pos d : Z) : Op unit :=
  s <- this ;;
  if negb (isValid s) then ret tt
  else
    sp <- defined (index (m_sequence s) pos) ;;
    let old := duration sp in
    let new := Int.std_min (duration (m_max s))
                 (Int.std_max (duration (m_min s)) d) in
    l <- defined (assign (m_sequence s) pos (with_duration sp new)) ;;
    store (with_sequence l) ;;
    if old =? new then ret tt else valuesChanged pos.

Definition setDuration (d : Z) : Op unit :=
  s <- this ;;
  if m_curPoint s <? 0 then ret tt else setDuration_at (m_curPoint s) d.

Definition setTimeToTarget_at (pos t : Z) : Op unit :=
  s <- this ;;
  if negb (isValid s) then ret tt
  else
    sp <- defined (index (m_sequence s) pos) ;;
    let old := timeToTarget sp in
    let new := Int.std_min (timeToTarget (m_max s))
                 (Int.std_max (timeToTarget (m_min s)) t) in
    l <- defined (assign (m_sequence s) pos (with_timeToTarget sp new)) ;;
    store (with_sequence l) ;;
    if old =? new then ret tt else valuesChanged pos.

Definition setTimeToTarget (t : Z) : Op unit :=
  s <- this ;;
  if m_curPoint s <? 0 then ret tt else setTimeToTarget_at (m_curPoint s) t.

(** *** Read access to the current point *)

Definition point_cur (s : Sequence) : option SequencePoint :=
  index (m_sequence s) (m_curPoint s).

Definition pointCoordinate_at (s : Sequence) (pos c : Z) : option double :=
  match index (m_sequence s) pos with
  | Some sp => index (point sp) c
  | None => None
  end.

Definition pointCoordinate (s : Sequence) (c : Z) : option double :=
  if m_curPoint s <? 0 then Some Double.zero
  else pointCoordinate_at s (m_curPoint s) c.

Definition pointDuration_at (s : Sequence) (pos : Z) : option Z :=
  option_map duration (index (m_sequence s) pos).

Definition pointDuration (s : Sequence) : option Z :=
  if m_curPoint s <? 0 then Some 0 else pointDuration_at s (m_curPoint s).

Definition pointTimeToTarget_at (s : Sequence) (pos : Z) : option Z :=
  option_map timeToTarget (index (m_sequence s) pos).

Definition pointTimeToTarget (s : Sequence) : option Z :=
  if m_curPoint s <? 0 then Some 0
  else pointTimeToTarget_at s (m_curPoint s).

(** *** Persistence *)

(** [save()]; [m_isModified] is [mutable], the function clears it and emits
    nothing. *)
Definition save : Op QJsonDocument :=
  s <- this ;;
  if negb (isValid s) then ret DocNull
  else
    let a := JObject (toJson (m_min s)) :: JObject (toJson (m_max s))
             :: map (fun sp => JObject (toJson sp)) (m_sequence s) in
    store (with_isModified false) ;;
    ret (DocArray a).

(** What the file system does with the request of [save(filename)]. *)
Inductive FileOutcome : Type :=
| OpenFails
| WriteFails
| WriteSucceeds.

Definition save_file (io : FileOutcome) : Op bool :=
  s <- this ;;
  if negb (isValid s) then ret false
  else
    let oldIsModified := m_isModified s in
    doc <- save ;;
    store (with_isModified oldIsModified) ;;
    match io with
    | OpenFails => ret false
    | WriteFails => ret false
    | WriteSucceeds => store (with_isModified false) ;; ret true
    end.

(** The locals of [load] that the loop over the array updates. *)
Record Loading : Type := mkLoading {
  l_list : list SequencePoint;
  l_minPoint : SequencePoint;
  l_maxPoint : SequencePoint;
  l_dim : Z;
  l_index : Z
}.

(** Lines 108-133; [None] is leaving the loop with [error] set. *)
Fixpoint load_loop (a : list QJsonValue) (st : Loading) : option Loading :=
  match a with
  | [] => Some st
  | JObject o :: a' =>
      match fromJson o with
      | None => None
      | Some sp =>
          let st :=
            if l_index st =? 0
            then mkLoading (l_list st) sp (l_maxPoint st)
                           (l_dim st) (l_index st)
            else if l_index st =? 1
            then mkLoading (l_list st) (l_minPoint st) sp
                           (l_dim st) (l_index st)
            else mkLoading (l_list st ++ [sp]) (l_minPoint st)
                           (l_maxPoint st) (l_dim st) (l_index st) in
          if negb (l_dim st =? -1) && negb (l_dim st =? length_ (point sp))
          then None
          else load_loop a'
                 (mkLoading (l_list st) (l_minPoint st) (l_maxPoint st)
                            (length_ (point sp)) (l_index st + 1))
      end
  | _ :: _ => None
  end.

(** Lines 143-145: [s->m_sequence.append(s->validatePoint(sp))]. *)
Fixpoint appendValidated (s : Sequence) (l : list SequencePoint)
  : option Sequence :=
  match l with
  | [] => Some s
  | sp :: l' =>
      match validatePoint s sp false with
      | Some p => appendValidated (with_sequence (m_sequence s ++ [p]) s) l'
      | None => None
      end
  end.

(** [load(const QJsonDocument&)]; the result is [None] only if a
    [validatePoint] of the second loop were undefined. *)
Definition load (json : QJsonDocument) : option Sequence :=
  match json with
  | DocArray a =>
      match load_loop a (mkLoading [] SequencePoint_new SequencePoint_new
                                   (-1) 0) with
      | None => Some Sequence_default
      | Some st =>
          if l_index st <? 1 then Some Sequence_default
          else
            match appendValidated
                    (Sequence_new (Z.to_nat (l_dim st)) (l_minPoint st)
                                  (l_maxPoint st))
                    (l_list st) with
            | Some s =>
                Some (if negb (isEmpty (l_list st)) then with_curPoint 0 s
                      else s)
            | None => None
            end
      end
  | _ => Some Sequence_default
  end.

(** *** The mutators as one type of calls *)

Inductive Mutator : Type :=
| SetCurPoint (p : Z)
| InsertAfterCurrent
| InsertBeforeCurrent
| Append
| RemoveCurrent
| Clear
| SetPointAt (pos : Z) (p : SequencePoint)
| SetPoint (p : SequencePoint)
| SetPointCoordinateAt (pos c : Z) (v : double)
| SetPointCoordinate (c : Z) (v : double)
| SetDurationAt (pos d : Z)
| SetDuration (d : Z)
| SetTimeToTargetAt (pos t : Z)
| SetTimeToTarget (t : Z).

Definition call (m : Mutator) : Op unit :=
  match m with
  | SetCurPoint p => setCurPoint p
  | InsertAfterCurrent => insertAfterCurrent
  | InsertBeforeCurrent => insertBeforeCurrent
  | Append => append
  | RemoveCurrent => removeCurrent
  | Clear => clear
  | SetPointAt pos p => setPoint_at pos p
  | SetPoint p => setPoint p
  | SetPointCoordinateAt pos c v => setPointCoordinate_at pos c v
  | SetPointCoordinate c v => setPointCoordinate c v
  | SetDurationAt pos d => setDuration_at pos d
  | SetDuration d => setDuration d
  | SetTimeToTargetAt pos t => setTimeToTarget_at pos t
  | SetTimeToTarget t => setTimeToTarget t
  end.

End Members.

(** ** The predicates of the specification *)

(** Every coordinate of [pt] lies between the entries of [lo] and [hi] at its
    position. *)
Fixpoint coords_within (lo hi pt : list double) {struct pt} : bool :=
  match pt with
  | [] => true
  | x :: pt' =>
      match lo, hi with
      | l :: lo', h :: hi' =>
          Double.leb l x && Double.leb x h && coords_within lo' hi' pt'
      | _, _ => false
      end
  end.

(** [min.point[i] <= max.point[i]] for every [i]. *)
Fixpoint coords_ordered (lo hi : list double) : bool :=
  match lo, hi with
  | [], [] => true
  | l :: lo', h :: hi' => Double.leb l h && coords_ordered lo' hi'
  | _, _ => false
  end.

(** Both bounds have [pointDim] coordinates, as the constructor leaves them. *)
Definition bounds_formed (s : Sequence) : bool :=
  (List.length (point (m_min s)) =? m_pointDim s)%nat
  && (List.length (point (m_max s)) =? m_pointDim s)%nat.

(** [min <= max], field by field. *)
Definition bounds_ordered (s : Sequence) : bool :=
  coords_ordered (point (m_min s)) (point (m_max s))
  && (duration (m_min s) <=? duration (m_max s))
  && (timeToTarget (m_min s) <=? timeToTarget (m_max s)).

(** [p] has [pointDim] coordinates and lies within [[min, max]]. *)
Definition within (s : Sequence) (p : SequencePoint) : bool :=
  (List.length (point p) =? m_pointDim s)%nat
  && coords_within (point (m_min s)) (point (m_max s)) (point p)
  && (duration (m_min s) <=? duration p) && (duration p <=? duration (m_max s))
  && (timeToTarget (m_min s) <=? timeToTarget p)
  && (timeToTarget p <=? timeToTarget (m_max s)).

Definition stored_within (s : Sequence) : bool :=
  forallb (within s) (m_sequence s).

(** [curPoint] is -1 on an empty sequence and a position of the list
    otherwise. *)
Definition cursor_ok (s : Sequence) : bool :=
  if isEmpty (m_sequence s) then m_curPoint s =? -1
  else (0 <=? m_curPoint s) && (m_curPoint s <=? length_ (m_sequence s) - 1).

(** The fields of a point are values of [int]. *)
Definition ints_of_point (p : SequencePoint) : bool :=
  Int.in_range (duration p) && Int.in_range (timeToTarget p).

Definition ints_of_sequence (s : Sequence) : bool :=
  ints_of_point (m_min s) && ints_of_point (m_max s)
  && forallb ints_of_point (m_sequence s).

(** The positions a call names exist: a positional setter reads
    [m_sequence[pos]] (and [point[c]]) without a check. *)
Definition positions_exist (m : Mutator) (s : Sequence) : bool :=
  let pos_ok pos := (0 <=? pos) && (pos <? length_ (m_sequence s)) in
  let c_ok c := (0 <=? c) && (c <? Z.of_nat (m_pointDim s)) in
  match m with
  | SetPointAt pos _ | SetDurationAt pos _ | SetTimeToTargetAt pos _ =>
      pos_ok pos
  | SetPointCoordinateAt pos c _ => pos_ok pos && c_ok c
  | SetPointCoordinate c _ => c_ok c
  | _ => true
  end.

(** The dimension and the bounds of [s'] are those of [s]. *)
Definition same_bounds (s s' : Sequence) : Prop :=
  m_pointDim s' = m_pointDim s /\ m_min s' = m_min s /\ m_max s' = m_max s.

(** The default invalid Sequence as the specification describes it. *)
Definition default_invalid (s : Sequence) : Prop :=
  m_pointDim s = O /\ m_sequence s = [] /\ m_curPoint s = -1
  /\ m_isModified s = false.

(** Two lists of points are equal as [operator==] of the elements sees it. *)
Definition same_points (l1 l2 : list SequencePoint) : Prop :=
  Forall2 (fun p q => SequencePoint_eqb p q = true) l1 l2.

Section LoadWords.
Context {impl : SequencePointImpl}.

(** The point an element of the array stands for: the element is an object
    and [fromJson] accepts it. *)
Definition element_point (v : QJsonValue) : option SequencePoint :=
  match v with
  | JObject o => fromJson o
  | _ => None
  end.

(** The points of an array all of whose elements stand for one. *)
Fixpoint parsed (a : list QJsonValue) : option (list SequencePoint) :=
  match a with
  | [] => Some []
  | v :: a' =>
      match element_point v, parsed a' with
      | Some p, Some ps => Some (p :: ps)
      | _, _ => None
      end
  end.

(** Every point of [ps] has [d] coordinates, where [d = -1] stands for no
    dimension seen yet. *)
Fixpoint uniform (d : Z) (ps : list SequencePoint) : bool :=
  match ps with
  | [] => true
  | p :: ps' =>
      ((d =? -1) || (d =? length_ (point p)))
      && uniform (length_ (point p)) ps'
  end.

(** One turn of the loop of [load] on a point that passes the check of its
    dimension. *)
Definition placed (st : Loading) (sp : SequencePoint) : Loading :=
  let st :=
    if l_index st =? 0
    then mkLoading (l_list st) sp (l_maxPoint st) (l_dim st) (l_index st)
    else if l_index st =? 1
    then mkLoading (l_list st) (l_minPoint st) sp (l_dim st) (l_index st)
    else mkLoading (l_list st ++ [sp]) (l_minPoint st) (l_maxPoint st)
                   (l_dim st) (l_index st) in
  mkLoading (l_list st) (l_minPoint st) (l_maxPoint st)
            (length_ (point sp)) (l_index st + 1).

(** The cases in which the specification has [load] fail: the document is
    not an array, an element is not an object, an element fails [fromJson],
    the dimension of an element disagrees with that of the first, or the
    array has no element. *)
Definition load_refuses (json : QJsonDocument) : Prop :=
  match json with
  | DocArray a =>
      (exists v, In v a /\ forall o, v <> JObject o)
      \/ (exists o, In (JObject o) a /\ fromJson o = None)
      \/ (exists o0 p0 rest o p,
            a = JObject o0 :: rest /\ fromJson o0 = Some p0
            /\ In (JObject o) a /\ fromJson o = Some p
            /\ List.length (point p) <> List.length (point p0))
      \/ a = []
  | _ => True
  end.

End LoadWords.

Section Reachable.
Context {impl : SequencePointImpl}.

(** The objects a program can hold: a constructed or loaded [Sequence], and
    what calls of mutators make of it. *)
Inductive reachable : Sequence -> Prop :=
| reach_new : forall dim lo hi, reachable (Sequence_new dim lo hi)
| reach_load : forall json s, load json = Some s -> reachable s
| reach_call : forall s m s' e,
    reachable s -> run (call m) s = Some (s', e) -> reachable s'.

End Reachable.

(** ** The objects of the specification's examples *)

(** [{0,0,0; dur 0; ttt 0}] and [{10,10,10; dur 100; ttt 100}]. *)
Definition example_min : SequencePoint :=
  mkPoint [Double.zero; Double.zero; Double.zero] 0 0.
Definition example_max : SequencePoint :=
  mkPoint [Double.of_int 10; Double.of_int 10; Double.of_int 10] 100 100.

(** The empty valid Sequence over these bounds. *)
Definition example_empty : Sequence := Sequence_new 3 example_min example_max.

(** The same with one stored point, the cursor on it, and unsaved. *)
Definition example_one : Sequence :=
  mkSequence 3 example_min example_max
    [mkPoint [Double.of_int 5; Double.zero; Double.of_int 10] 7 100] 0 true.

(** The members modelled from the specification, with 0 in the two [int]s
    of a default-constructed point. *)
Definition impl0 : SequencePointImpl := SequencePoint_modelled 0 0.

(** The example bounds with 10 as the largest timeToTarget, and with the
    two durations exchanged. *)
Definition example_short : Sequence :=
  Sequence_new 3 example_min (with_timeToTarget example_max 10).
Definition example_inverted : Sequence :=
  Sequence_new 3 (with_duration example_min 100) (with_duration example_max 0).

(** A document with one point of dimension 3, and one with one point of
    dimension 0. *)
Definition doc_single : QJsonDocument :=
  DocArray [JObject (SequencePoint_toJson example_min)].
Definition doc_single_dim0 : QJsonDocument :=
  DocArray [JObject (SequencePoint_toJson (mkPoint [] 7 3))].

Section AsStated.
Context {impl : SequencePointImpl}.

(** Claim C5 as the specification words it, at [s]: the point
    [insertAfterCurrent] stores in a Sequence without current point is the
    midpoint of [min] and [max] in the coordinates, in the duration and in
    the timeToTarget. *)
Definition midpoint_inserted (s : Sequence) : Prop :=
  exists s' e p,
    run insertAfterCurrent s = Some (s', e)
    /\ m_sequence s' = [p] /\ m_curPoint s' = 0
    /\ midpoints (m_pointDim s) (point (m_max s)) (point (m_min s))
       = Some (point p)
    /\ duration p
       = Int.div (Int.add (duration (m_max s)) (duration (m_min s))) 2
    /\ timeToTarget p
       = Int.div (Int.add (timeToTarget (m_max s)) (timeToTarget (m_min s))) 2.

(** Claim C3 as the specification words it, at [json]. *)
Definition load_as_stated (json : QJsonDocument) : Prop :=
  ((exists s, load json = Some s /\ default_invalid s) <-> load_refuses json)
  /\ (~ load_refuses json ->
      exists a ps s,
        json = DocArray a /\ parsed a = Some ps /\ load json = Some s
        /\ nth_error ps 0 = Some (m_min s)
        /\ nth_error ps 1 = Some (m_max s)
        /\ Forall2 (fun p q => validatePoint s p false = Some q)
                   (skipn 2 ps) (m_sequence s)
        /\ m_curPoint s = (if isEmpty (m_sequence s) then -1 else 0)
        /\ m_isModified s = false).

End AsStated.

(** ** The remaining members of [Sequence] and its owner *)

(** [minPointCoordinate(c)], [minPointDuration()], [minPointTimeToTarget()]
    and their three counterparts for [max] (lines 320-353). *)
Definition minPointCoordinate (s : Sequence) (c : Z) : option double :=
  index (point (m_min s)) c.
Definition minPointDuration (s : Sequence) : Z := duration (m_min s).
Definition minPointTimeToTarget (s : Sequence) : Z := timeToTarget (m_min s).
Definition maxPointCoordinate (s : Sequence) (c : Z) : option double :=
  index (point (m_max s)) c.
Definition maxPointDuration (s : Sequence) : Z := duration (m_max s).
Definition maxPointTimeToTarget (s : Sequence) : Z := timeToTarget (m_max s).

(** [operator[](pos)] (line 355). *)
Definition point_at (s : Sequence) (pos : Z) : option SequencePoint :=
  index (m_sequence s) pos.

(** A point [validatePoint] returns as it is. *)
Definition canonical (s : Sequence) (p : SequencePoint) : Prop :=
  validatePoint s p false = Some p.

(** The literals of sequencer.cpp; [2.5] and [19.7] are the doubles nearest
    to 5/2 and to 197/10. *)
Definition Sequencer_minPoint : SequencePoint :=
  mkPoint [Double.of_int (-1); Double.of_int 40; Double.of_int (-36)] 3 1.
Definition Sequencer_maxPoint : SequencePoint :=
  mkPoint [Double.of_int 4; Double.of_int 230; Double.of_int 75] 3000 10000.
Definition Sequencer_seed : SequencePoint :=
  mkPoint [Double.div (Double.of_int 5) (Double.of_int 2);
           Double.of_int 53;
           Double.div (Double.of_int 197) (Double.of_int 10)] 100 300.

Section Owner.
Context {impl : SequencePointImpl}.

(** [Sequencer::Sequencer] (sequencer.cpp, lines 29-40): the Sequence it
    builds, by [append()] and [setPoint(p)] on the new object. *)
Definition Sequencer_new : option (Sequence * list Signal) :=
  run (append ;; setPoint Sequencer_seed)
      (Sequence_new 3 Sequencer_minPoint Sequencer_maxPoint).

(** Two calls in a row. *)
Definition call2 (m1 m2 : Mutator) : Op unit := call m1 ;; call m2.

End Owner.

(** *** Signals of a change *)

(** [sequenceModified()] emits [isModifiedChanged] only when the flag was
    clear. *)
Definition flag_signal (s : Sequence) : list Signal :=
  if m_isModified s then [] else [isModifiedChanged].

(** The signals of a setter at [pos] that changed the stored value. *)
Definition change_signals (s : Sequence) (pos : Z) : list Signal :=
  [pointValuesChanged pos]
  ++ (if pos =? m_curPoint s then [curPointValuesChanged] else [])
  ++ flag_signal s.

(** * Properties *)

(** ** Comparisons of doubles and the clamp [std::min(hi, std::max(lo, v))] *)

Module DoubleFacts.
Import Double.

Lemma compare_refl (a : double) : a <> S754_nan -> compare a a = Some Eq.
Proof.
  destruct a as [s | s | | s m e]; try congruence; intros _;
    unfold compare; simpl.
  - reflexivity.
  - destruct s; reflexivity.
  - rewrite Z.compare_refl, Pos.compare_cont_refl. destruct s; reflexivity.
Qed.

Lemma compare_some_l (a b : double) c : compare a b = Some c -> a <> S754_nan.
Proof. intros H ->. discriminate H. Qed.

Lemma compare_some_r (a b : double) c : compare a b = Some c -> b <> S754_nan.
Proof. intros H ->. destruct a; discriminate H. Qed.

(** Two doubles that compare equal are the same double, or two zeros. *)
Lemma compare_Eq (a b : double) :
  compare a b = Some Eq ->
  a = b \/ (exists s1 s2, a = S754_zero s1 /\ b = S754_zero s2).
Proof.
  unfold compare.
  destruct a as [s1 | s1 | | s1 m1 e1], b as [s2 | s2 | | s2 m2 e2]; simpl;
    intros H; try discriminate H;
    try (destruct s1; discriminate H); try (destruct s2; discriminate H).
  - right. eauto.
  - left. destruct s1, s2; try discriminate H; reflexivity.
  - left.
    assert (e1 = e2 /\ m1 = m2) as [-> ->].
    { destruct s1, s2; try discriminate H;
        destruct (Z.compare_spec e1 e2); try discriminate H;
        (split; [assumption |]); apply Pos.compare_eq; unfold Pos.compare;
        destruct (Pos.compare_cont Eq m1 m2); simpl in H; congruence. }
    destruct s1, s2; try discriminate H; reflexivity.
Qed.

Lemma compare_Eq_sym (a b : double) :
  compare a b = Some Eq -> compare b a = Some Eq.
Proof.
  intros H. destruct (compare_Eq _ _ H) as [-> | (s1 & s2 & -> & ->)];
    [assumption | reflexivity].
Qed.

Lemma compare_Eq_cong (a b c : double) :
  compare a b = Some Eq -> compare a c = compare b c.
Proof.
  intros H. destruct (compare_Eq _ _ H) as [-> | (s1 & s2 & -> & ->)];
    [reflexivity | destruct c; reflexivity].
Qed.

Lemma ltb_leb (a b : double) : ltb a b = true -> leb a b = true.
Proof.
  unfold ltb, leb, SFltb, SFleb.
  destruct (SFcompare a b) as [[] |]; congruence.
Qed.

Lemma leb_refl_l (a b : double) : leb a b = true -> leb a a = true.
Proof.
  intros H. unfold leb, SFleb in *. fold (compare a b) in H.
  fold (compare a a). rewrite compare_refl; [reflexivity |].
  destruct (compare a b) eqn:E; [| discriminate H].
  eapply compare_some_l, E.
Qed.

Lemma leb_refl_r (a b : double) : leb a b = true -> leb b b = true.
Proof.
  intros H. unfold leb, SFleb in *. fold (compare a b) in H.
  fold (compare b b). rewrite compare_refl; [reflexivity |].
  destruct (compare a b) eqn:E; [| discriminate H].
  eapply compare_some_r, E.
Qed.

Lemma leb_not_ltb (a b : double) :
  leb a b = true -> ltb a b = false -> compare a b = Some Eq.
Proof.
  unfold ltb, leb, SFltb, SFleb, compare.
  destruct (SFcompare a b) as [[] |]; congruence.
Qed.

Lemma eqb_compare (a b : double) : compare a b = Some Eq -> eqb a b = true.
Proof. unfold eqb, SFeqb, compare. intros ->. reflexivity. Qed.

(** The clamp lands in [[lo, hi]] whatever [v] is, NaN included. *)
Lemma double_clamp_within (lo hi v : double) :
  leb lo hi = true ->
  leb lo (std_min hi (std_max lo v)) = true
  /\ leb (std_min hi (std_max lo v)) hi = true.
Proof.
  intros H. unfold std_min, std_max.
  destruct (ltb lo v) eqn:E1.
  - destruct (ltb v hi) eqn:E2.
    + split; apply ltb_leb; assumption.
    + split; [assumption | eapply leb_refl_r, H].
  - destruct (ltb lo hi) eqn:E2.
    + split; [eapply leb_refl_l, H | assumption].
    + split; [assumption | eapply leb_refl_r, H].
Qed.

(** The clamp of a value within [[lo, hi]] is [==] to it. *)
Lemma double_clamp_fixed (lo hi x : double) :
  leb lo x = true -> leb x hi = true ->
  eqb (std_min hi (std_max lo x)) x = true.
Proof.
  intros H1 H2. unfold std_min, std_max.
  destruct (ltb lo x) eqn:E1.
  - destruct (ltb x hi) eqn:E2.
    + apply eqb_compare, compare_refl. intros ->. discriminate H2.
    + apply eqb_compare, compare_Eq_sym, leb_not_ltb; assumption.
  - pose proof (leb_not_ltb _ _ H1 E1) as Hlx.
    destruct (ltb lo hi) eqn:E2.
    + apply eqb_compare; assumption.
    + apply eqb_compare, compare_Eq_sym.
      apply leb_not_ltb; [assumption |].
      unfold ltb, SFltb in *. fold (compare x hi). fold (compare lo hi) in E2.
      rewrite <- (compare_Eq_cong _ _ hi Hlx). assumption.
Qed.

End DoubleFacts.

(** ** [int]: the clamp, and the passage through a JSON number *)

Module IntFacts.
Import Int.

Ltac by_cases_ltb :=
  repeat match goal with
         | |- context [?a <? ?b] => destruct (Z.ltb_spec a b)
         end;
  lia.

Lemma int_clamp_within (lo hi v : Z) :
  lo <= hi -> lo <= std_min hi (std_max lo v) <= hi.
Proof.
  intros H. unfold std_min, std_max. destruct (Z.ltb_spec lo v); by_cases_ltb.
Qed.

Lemma int_clamp_fixed (lo hi x : Z) :
  lo <= x -> x <= hi -> std_min hi (std_max lo x) = x.
Proof.
  intros H1 H2. unfold std_min, std_max.
  destruct (Z.ltb_spec lo x); by_cases_ltb.
Qed.

Lemma to_Z_of_pos (p : positive) (s : bool) :
  Zpos p <= 2 ^ 31 ->
  let '(m, e) := Double.of_pos p in
  Double.to_Z (S754_finite s m e) = Some (if s then Zneg p else Zpos p).
Proof.
  intros Hp. unfold Double.of_pos, Double.to_Z, Double.prec.
  assert (Hlog : 0 <= Z.log2 (Zpos p) < 32).
  { split; [apply Z.log2_nonneg |]. apply Z.log2_lt_pow2; lia. }
  set (n := Z.log2 (Zpos p) + 1) in *.
  assert (Hpow : 0 < 2 ^ (53 - n)) by (apply Z.pow_pos_nonneg; lia).
  destruct (Z.leb_spec 0 (n - 53)); [lia |].
  replace (- (n - 53)) with (53 - n) by lia.
  rewrite Z2Pos.id by lia.
  rewrite Z.mod_mul by lia. simpl (0 =? 0).
  rewrite Z.div_mul by lia.
  destruct s; reflexivity.
Qed.

(** An [int] written as a JSON number is read back unchanged. *)
Lemma of_double_of_int (z : Z) :
  in_range z = true -> of_double (Double.of_int z) = Some z.
Proof.
  intros Hz. unfold of_double.
  assert (H : Double.to_Z (Double.of_int z) = Some z).
  { pose proof Hz as Hr. unfold in_range, min_int, max_int in Hr.
    apply andb_prop in Hr as [Hlo Hhi].
    apply Z.leb_le in Hlo. apply Z.leb_le in Hhi.
    destruct z as [| p | p]; [reflexivity | |]; unfold Double.of_int.
    - pose proof (to_Z_of_pos p false) as H.
      destruct (Double.of_pos p). apply H. lia.
    - pose proof (to_Z_of_pos p true) as H.
      destruct (Double.of_pos p). apply H. lia. }
  rewrite H, Hz. reflexivity.
Qed.

End IntFacts.

(** ** Containers *)

Section ContainerFacts.
Context {A : Type}.
Implicit Types (l : list A) (P : A -> bool).

Lemma length_nonneg l : 0 <= length_ l.
Proof. unfold length_. lia. Qed.

Lemma isEmpty_length l : isEmpty l = (length_ l =? 0).
Proof. destruct l; reflexivity. Qed.

Lemma index_Some l i x :
  index l i = Some x ->
  0 <= i < length_ l /\ nth_error l (Z.to_nat i) = Some x.
Proof.
  unfold index. destruct (Z.leb_spec 0 i), (Z.ltb_spec i (length_ l));
    simpl; intros Hx; try discriminate Hx. split; [lia | assumption].
Qed.

Lemma index_defined l i : 0 <= i < length_ l -> exists x, index l i = Some x.
Proof.
  intros H. unfold index.
  destruct (Z.leb_spec 0 i), (Z.ltb_spec i (length_ l)); try lia. simpl.
  destruct (nth_error l (Z.to_nat i)) eqn:E; [eauto |].
  apply nth_error_None in E. unfold length_ in H. lia.
Qed.

Lemma index_forallb l i x P :
  index l i = Some x -> forallb P l = true -> P x = true.
Proof.
  intros H Hall. apply index_Some in H as [_ H].
  apply nth_error_In in H. rewrite forallb_forall in Hall. auto.
Qed.

Lemma forallb_firstn_skipn l n P :
  forallb P l = true ->
  forallb P (firstn n l) = true /\ forallb P (skipn n l) = true.
Proof.
  intros H. rewrite <- (firstn_skipn n l), forallb_app in H.
  apply andb_prop in H. assumption.
Qed.

Lemma forallb_insert l i x P :
  forallb P l = true -> P x = true -> forallb P (insert l i x) = true.
Proof.
  intros H Hx. unfold insert.
  destruct (forallb_firstn_skipn l (Z.to_nat i) P H) as [H1 H2].
  rewrite forallb_app. simpl. rewrite H1, Hx, H2. reflexivity.
Qed.

Lemma forallb_snoc l x P :
  forallb P l = true -> P x = true -> forallb P (l ++ [x]) = true.
Proof. intros H Hx. rewrite forallb_app. simpl. rewrite H, Hx. reflexivity. Qed.

Lemma forallb_update l n x P :
  forallb P l = true -> P x = true -> forallb P (update n x l) = true.
Proof.
  revert n. induction l as [| y l IH]; intros n H Hx; [reflexivity |].
  simpl in H. apply andb_prop in H as [Hy Hl].
  destruct n; simpl; [rewrite Hx | rewrite Hy, IH]; auto.
Qed.

Lemma forallb_assign l i x l' P :
  assign l i x = Some l' -> forallb P l = true -> P x = true ->
  forallb P l' = true.
Proof.
  unfold assign. destruct (_ && _); intros H; inversion H.
  apply forallb_update.
Qed.

Lemma forallb_removeAt l i l' P :
  removeAt l i = Some l' -> forallb P l = true -> forallb P l' = true.
Proof.
  unfold removeAt. destruct (_ && _); intros H Hall; [| discriminate H].
  injection H as <-.
  destruct (forallb_firstn_skipn l (Z.to_nat i) P Hall) as [Hfst _].
  destruct (forallb_firstn_skipn l (Z.to_nat (i + 1)) P Hall) as [_ Hsnd].
  rewrite forallb_app, Hfst. exact Hsnd.
Qed.

Lemma length_update l n x : List.length (update n x l) = List.length l.
Proof.
  revert n. induction l as [| y l IH]; intros [| n]; simpl; auto.
Qed.

Lemma assign_defined l i x :
  0 <= i < length_ l -> exists l', assign l i x = Some l'.
Proof.
  intros H. unfold assign.
  destruct (Z.leb_spec 0 i), (Z.ltb_spec i (length_ l)); try lia.
  simpl. eauto.
Qed.

Lemma length_assign l i x l' :
  assign l i x = Some l' -> length_ l' = length_ l.
Proof.
  unfold assign. destruct (_ && _); intros H; inversion H.
  unfold length_. rewrite length_update. reflexivity.
Qed.

Lemma length_snoc l x : length_ (l ++ [x]) = length_ l + 1.
Proof. unfold length_. rewrite length_app. simpl. lia. Qed.

Lemma length_insert l i x : length_ (insert l i x) = length_ l + 1.
Proof.
  unfold length_, insert.
  rewrite <- (firstn_skipn (Z.to_nat i) l) at 3.
  rewrite !length_app. simpl. lia.
Qed.

Lemma removeAt_defined l i :
  0 <= i < length_ l -> exists l', removeAt l i = Some l'.
Proof.
  intros H. unfold removeAt.
  destruct (Z.leb_spec 0 i), (Z.ltb_spec i (length_ l)); try lia.
  simpl. eauto.
Qed.

Lemma length_removeAt l i l' :
  removeAt l i = Some l' -> 0 <= i < length_ l /\ length_ l' = length_ l - 1.
Proof.
  unfold removeAt.
  destruct (Z.leb_spec 0 i), (Z.ltb_spec i (length_ l));
    cbn [andb]; intros Hr; try discriminate Hr.
  injection Hr as <-. split; [lia |].
  unfold length_ in *. rewrite length_app, length_firstn, length_skipn. lia.
Qed.

End ContainerFacts.

(** ** [validatePoint] and [defaultSequencePoint] *)

Section ValidateFacts.
Context {impl : SequencePointImpl}.

Lemma length_resized dim pt : List.length (resized dim pt) = dim.
Proof.
  unfold resized.
  destruct (Nat.ltb_spec (List.length pt) dim).
  - rewrite length_app, repeat_length. lia.
  - destruct (Nat.ltb_spec dim (List.length pt)).
    + rewrite length_firstn. lia.
    + lia.
Qed.

Lemma resized_id dim pt : List.length pt = dim -> resized dim pt = pt.
Proof.
  intros <-. unfold resized. rewrite Nat.ltb_irrefl. reflexivity.
Qed.

Lemma limited_within lo hi pt :
  (List.length pt <= List.length lo)%nat ->
  (List.length pt <= List.length hi)%nat ->
  exists pt',
    limited lo hi pt = Some pt'
    /\ List.length pt' = List.length pt
    /\ (coords_ordered lo hi = true -> coords_within lo hi pt' = true).
Proof.
  revert lo hi. induction pt as [| x pt IH]; intros lo hi Hlo Hhi.
  - exists []. repeat split; reflexivity.
  - destruct lo as [| l lo]; [simpl in Hlo; lia |].
    destruct hi as [| h hi]; [simpl in Hhi; lia |].
    simpl in Hlo, Hhi.
    destruct (IH lo hi) as (pt' & E & Hlen & Hin); [lia | lia |].
    simpl. rewrite E. simpl. eexists. split; [reflexivity |].
    split; [simpl; congruence |].
    intros Hord. apply andb_prop in Hord as [Hlh Hord]. simpl.
    destruct (DoubleFacts.double_clamp_within l h x Hlh) as [-> ->].
    simpl. auto.
Qed.

Lemma limited_fixed lo hi pt :
  coords_within lo hi pt = true ->
  exists pt',
    limited lo hi pt = Some pt' /\ vector_eqb Double.eqb pt' pt = true.
Proof.
  revert lo hi. induction pt as [| x pt IH]; intros lo hi H.
  - exists []. split; reflexivity.
  - destruct lo as [| l lo]; [discriminate H |].
    destruct hi as [| h hi]; [discriminate H |].
    simpl in H. apply andb_prop in H as [H Hrest].
    apply andb_prop in H as [Hl Hh].
    destruct (IH lo hi Hrest) as (pt' & E & Heq).
    simpl. rewrite E. simpl. eexists. split; [reflexivity |].
    simpl. rewrite DoubleFacts.double_clamp_fixed by assumption. assumption.
Qed.

Lemma validatePoint_skip s p :
  validatePoint s p true
  = Some (with_point p (resized (m_pointDim s) (point p))).
Proof. reflexivity. Qed.

Lemma validatePoint_within s p :
  bounds_formed s = true ->
  exists p',
    validatePoint s p false = Some p'
    /\ List.length (point p') = m_pointDim s
    /\ (bounds_ordered s = true -> within s p' = true).
Proof.
  intros Hf. unfold bounds_formed in Hf.
  apply andb_prop in Hf as [Hmin Hmax].
  apply Nat.eqb_eq in Hmin. apply Nat.eqb_eq in Hmax.
  unfold validatePoint.
  destruct (limited_within (point (m_min s)) (point (m_max s))
              (resized (m_pointDim s) (point p)))
    as (pt' & -> & Hlen & Hin);
    try (rewrite length_resized; lia).
  rewrite length_resized in Hlen.
  eexists. split; [reflexivity |]. split; [assumption |].
  intros Hord. unfold bounds_ordered in Hord.
  apply andb_prop in Hord as [Hord Ht]. apply andb_prop in Hord as [Hc Hd].
  apply Z.leb_le in Hd. apply Z.leb_le in Ht.
  unfold within. simpl. rewrite Hlen, Nat.eqb_refl, (Hin Hc). simpl.
  pose proof (IntFacts.int_clamp_within _ _ (duration p) Hd).
  pose proof (IntFacts.int_clamp_within _ _ (timeToTarget p) Ht).
  repeat (apply andb_true_intro; split); apply Z.leb_le; lia.
Qed.

Lemma validatePoint_fixed s p :
  within s p = true ->
  exists p',
    validatePoint s p false = Some p' /\ SequencePoint_eqb p' p = true.
Proof.
  unfold within. intros H.
  apply andb_prop in H as [H Ht2]. apply andb_prop in H as [H Ht1].
  apply andb_prop in H as [H Hd2]. apply andb_prop in H as [H Hd1].
  apply andb_prop in H as [Hlen Hc].
  apply Nat.eqb_eq in Hlen.
  apply Z.leb_le in Ht2. apply Z.leb_le in Ht1.
  apply Z.leb_le in Hd2. apply Z.leb_le in Hd1.
  unfold validatePoint. rewrite (resized_id _ _ Hlen).
  destruct (limited_fixed _ _ _ Hc) as (pt' & -> & Heq).
  eexists. split; [reflexivity |].
  unfold SequencePoint_eqb. simpl. rewrite Heq.
  rewrite !IntFacts.int_clamp_fixed by assumption.
  rewrite !Z.eqb_refl. reflexivity.
Qed.

Lemma midpoints_defined n hi lo :
  (n <= List.length hi)%nat -> (n <= List.length lo)%nat ->
  exists pt, midpoints n hi lo = Some pt /\ List.length pt = n.
Proof.
  revert hi lo. induction n as [| n IH]; intros hi lo Hhi Hlo.
  - exists []. split; reflexivity.
  - destruct hi as [| h hi]; [simpl in Hhi; lia |].
    destruct lo as [| l lo]; [simpl in Hlo; lia |].
    simpl in Hhi, Hlo.
    destruct (IH hi lo) as (pt & E & Hlen); [lia | lia |].
    simpl. rewrite E. simpl. eexists. split; [reflexivity |].
    simpl. congruence.
Qed.

Lemma defaultSequencePoint_defined s :
  bounds_formed s = true -> exists d, defaultSequencePoint s = Some d.
Proof.
  intros Hf. unfold bounds_formed in Hf.
  apply andb_prop in Hf as [Hmin Hmax].
  apply Nat.eqb_eq in Hmin. apply Nat.eqb_eq in Hmax.
  unfold defaultSequencePoint.
  destruct (midpoints_defined (m_pointDim s) (point (m_max s))
              (point (m_min s))) as (pt & -> & _); try lia.
  eauto.
Qed.

End ValidateFacts.

(** ** The calls of mutators *)

(** Splits a call along the tests it makes and the accesses it relies on. *)
Ltac crack H :=
  repeat (cbv beta iota
              delta [run bind this store emit ret defined sequenceModified
                     valuesChanged] in H;
          match type of H with
          | context [match ?x with _ => _ end] =>
              lazymatch x with
              | context [match _ with _ => _ end] => fail
              | _ => destruct x eqn:?
              end
          end);
  try discriminate H.

Ltac to_prop :=
  repeat match goal with
         | H : negb _ = true |- _ => apply negb_true_iff in H
         | H : negb _ = false |- _ => apply negb_false_iff in H
         | H : _ && _ = true |- _ =>
             let H' := fresh H in apply andb_prop in H as [H H']
         | H : _ || _ = false |- _ =>
             let H' := fresh H in apply orb_false_elim in H as [H H']
         | H : (_ =? _) = true |- _ => apply Z.eqb_eq in H
         | H : (_ =? _) = false |- _ => apply Z.eqb_neq in H
         | H : (_ <? _) = true |- _ => apply Z.ltb_lt in H
         | H : (_ <? _) = false |- _ => apply Z.ltb_ge in H
         | H : (_ <=? _) = true |- _ => apply Z.leb_le in H
         | H : (_ <=? _) = false |- _ => apply Z.leb_gt in H
         | H : (_ >=? _) = true |- _ => rewrite Z.geb_leb in H
         | H : (_ >=? _) = false |- _ => rewrite Z.geb_leb in H
         end.

Ltac open_call H :=
  cbn [call] in H;
  unfold setCurPoint, insertAfterCurrent, insertBeforeCurrent, append,
    removeCurrent, clear, setPoint, setPoint_at, setPointCoordinate,
    setPointCoordinate_at, setDuration, setDuration_at, setTimeToTarget,
    setTimeToTarget_at in H;
  crack H; injection H as <- <-.

Ltac fields :=
  cbn [m_pointDim m_min m_max m_sequence m_curPoint m_isModified
       with_sequence with_curPoint with_isModified].

Ltac lengths :=
  repeat match goal with
         | H : assign _ _ _ = Some _ |- _ => apply length_assign in H
         | H : removeAt _ _ = Some _ |- _ => apply length_removeAt in H
         | H : index _ _ = Some _ |- _ => apply index_Some in H as [H _]
         end.

Ltac by_cases_if :=
  repeat match goal with
         | H : context [if ?b then _ else _] |- _ => destruct b eqn:?; to_prop
         | |- context [if ?b then _ else _] => destruct b eqn:?; to_prop
         end.

Section CallFacts.
Context {impl : SequencePointImpl}.

Lemma same_bounds_refl s : same_bounds s s.
Proof. repeat split. Qed.

Lemma stored_within_intro s s' :
  same_bounds s s' -> forallb (within s) (m_sequence s') = true ->
  stored_within s' = true.
Proof.
  destruct s, s'. unfold same_bounds, stored_within, within. simpl.
  intros (-> & -> & ->). auto.
Qed.

Lemma validatePoint_Some_within s p p' :
  validatePoint s p false = Some p' ->
  bounds_formed s = true -> bounds_ordered s = true -> within s p' = true.
Proof.
  intros E Hf Ho.
  destruct (validatePoint_within s p Hf) as (q & E' & _ & Hin).
  rewrite E in E'. injection E' as <-. auto.
Qed.

Lemma coords_ordered_index lo hi c l h :
  coords_ordered lo hi = true -> index lo c = Some l -> index hi c = Some h ->
  Double.leb l h = true.
Proof.
  intros Ho Hl Hh.
  apply index_Some in Hl as [_ Hl]. apply index_Some in Hh as [_ Hh].
  revert lo hi Ho Hl Hh. generalize (Z.to_nat c) as n.
  induction n as [| n IH]; intros [| a lo] [| b hi] Ho Hl Hh;
    try discriminate; simpl in *; apply andb_prop in Ho as [Hab Ho].
  - congruence.
  - eauto.
Qed.

Lemma coords_within_update lo hi l h pt n x :
  coords_within lo hi pt = true ->
  nth_error lo n = Some l -> nth_error hi n = Some h ->
  Double.leb l x = true -> Double.leb x h = true ->
  coords_within lo hi (update n x pt) = true.
Proof.
  revert lo hi n. induction pt as [| y pt IH]; intros lo hi n H Hl Hh Hlx Hxh;
    [reflexivity |].
  destruct lo as [| a lo]; [discriminate H |].
  destruct hi as [| b hi]; [discriminate H |].
  simpl in H. apply andb_prop in H as [Hy Hrest].
  destruct n as [| n]; simpl in *.
  - injection Hl as ->. injection Hh as ->. rewrite Hlx, Hxh. assumption.
  - rewrite Hy. eauto.
Qed.

Lemma within_spec s p :
  within s p = true <->
  List.length (point p) = m_pointDim s
  /\ coords_within (point (m_min s)) (point (m_max s)) (point p) = true
  /\ duration (m_min s) <= duration p <= duration (m_max s)
  /\ timeToTarget (m_min s) <= timeToTarget p <= timeToTarget (m_max s).
Proof.
  unfold within.
  rewrite !andb_true_iff, Nat.eqb_eq, !Z.leb_le. tauto.
Qed.

Lemma bounds_ordered_spec s :
  bounds_ordered s = true <->
  coords_ordered (point (m_min s)) (point (m_max s)) = true
  /\ duration (m_min s) <= duration (m_max s)
  /\ timeToTarget (m_min s) <= timeToTarget (m_max s).
Proof.
  unfold bounds_ordered. rewrite !andb_true_iff, !Z.leb_le. tauto.
Qed.

(** A stored point stays within the limits when one of its fields is set to
    a clamped value. *)
Lemma within_with_duration s p d :
  within s p = true -> bounds_ordered s = true ->
  within s (with_duration p
              (Int.std_min (duration (m_max s))
                 (Int.std_max (duration (m_min s)) d))) = true.
Proof.
  rewrite !within_spec, bounds_ordered_spec. simpl.
  intros (Hlen & Hc & Hd & Ht) (_ & Hod & _).
  pose proof (IntFacts.int_clamp_within _ _ d Hod). tauto.
Qed.

Lemma within_with_timeToTarget s p t :
  within s p = true -> bounds_ordered s = true ->
  within s (with_timeToTarget p
              (Int.std_min (timeToTarget (m_max s))
                 (Int.std_max (timeToTarget (m_min s)) t))) = true.
Proof.
  rewrite !within_spec, bounds_ordered_spec. simpl.
  intros (Hlen & Hc & Hd & Ht) (_ & _ & Hot).
  pose proof (IntFacts.int_clamp_within _ _ t Hot). tauto.
Qed.

Lemma within_with_coordinate s p c lo hi v pt :
  within s p = true -> bounds_ordered s = true ->
  index (point (m_min s)) c = Some lo -> index (point (m_max s)) c = Some hi ->
  assign (point p) c (Double.std_min hi (Double.std_max lo v)) = Some pt ->
  within s (with_point p pt) = true.
Proof.
  rewrite !within_spec, bounds_ordered_spec. simpl.
  intros (Hlen & Hc & Hd & Ht) (Ho & _ & _) Hlo Hhi Hpt.
  pose proof (coords_ordered_index _ _ _ _ _ Ho Hlo Hhi) as Hlh.
  destruct (DoubleFacts.double_clamp_within lo hi v Hlh) as [H1 H2].
  apply index_Some in Hlo as [_ Hlo]. apply index_Some in Hhi as [_ Hhi].
  unfold assign in Hpt. destruct (_ && _); [| discriminate Hpt].
  injection Hpt as <-.
  rewrite length_update.
  rewrite (coords_within_update _ _ _ _ _ _ _ Hc Hlo Hhi H1 H2). tauto.
Qed.

(** No call touches the dimension or the bounds. *)
Lemma call_same_bounds m s s' e :
  run (call m) s = Some (s', e) -> same_bounds s s'.
Proof. intros H. destruct m; open_call H; repeat split. Qed.

(** Every call stores only points that went through a clamp. *)
Lemma call_stored_within m s s' e :
  run (call m) s = Some (s', e) ->
  bounds_formed s = true -> bounds_ordered s = true ->
  stored_within s = true -> stored_within s' = true.
Proof.
  intros H Hf Ho Hs.
  apply (stored_within_intro s); [eapply call_same_bounds, H |].
  unfold stored_within in Hs.
  destruct m; open_call H; fields;
    eauto 6 using forallb_snoc, forallb_insert, forallb_assign,
      forallb_removeAt, validatePoint_Some_within, within_with_duration,
      within_with_timeToTarget, within_with_coordinate, index_forallb.
Qed.

(** Every call leaves the cursor on a stored point, or at -1 on an empty
    sequence. *)
Lemma call_cursor_ok m s s' e :
  run (call m) s = Some (s', e) -> cursor_ok s = true -> cursor_ok s' = true.
Proof.
  intros H Hc. pose proof (length_nonneg (m_sequence s)) as Hlen.
  unfold cursor_ok in *. rewrite isEmpty_length in Hc.
  destruct m; open_call H; fields; rewrite ?isEmpty_length in *;
    change (length_ (@nil SequencePoint)) with 0 in *;
    rewrite ?length_snoc, ?length_insert; lengths; to_prop; by_cases_if;
    rewrite ?andb_true_iff, ?Z.leb_le, ?Z.eqb_eq; lia.
Qed.

Lemma index_None {A : Type} (l : list A) i :
  index l i = None -> ~ 0 <= i < length_ l.
Proof.
  intros H Hi. destruct (index_defined l i Hi) as [x E]. congruence.
Qed.

Lemma assign_None {A : Type} (l : list A) i x :
  assign l i x = None -> ~ 0 <= i < length_ l.
Proof.
  intros H Hi. destruct (assign_defined l i x Hi) as [l' E]. congruence.
Qed.

Lemma removeAt_None {A : Type} (l : list A) i :
  removeAt l i = None -> ~ 0 <= i < length_ l.
Proof.
  intros H Hi. destruct (removeAt_defined l i Hi) as [l' E]. congruence.
Qed.

Lemma bounds_formed_spec s :
  bounds_formed s = true <->
  length_ (point (m_min s)) = Z.of_nat (m_pointDim s)
  /\ length_ (point (m_max s)) = Z.of_nat (m_pointDim s).
Proof.
  unfold bounds_formed, length_. rewrite andb_true_iff, !Nat.eqb_eq. lia.
Qed.

Lemma stored_length s pos sp :
  stored_within s = true -> index (m_sequence s) pos = Some sp ->
  length_ (point sp) = Z.of_nat (m_pointDim s).
Proof.
  intros Hs Hi. apply (index_forallb _ _ _ _ Hi) in Hs.
  apply within_spec in Hs as [Hlen _]. unfold length_. lia.
Qed.

(** On an object that satisfies the invariants, a call whose positions exist
    makes no undefined access. *)
Lemma call_defined m s :
  bounds_formed s = true -> stored_within s = true -> cursor_ok s = true ->
  positions_exist m s = true ->
  exists s' e, run (call m) s = Some (s', e).
Proof.
  intros Hf Hs Hc Hp.
  destruct (run (call m) s) as [[s' e] |] eqn:H; [eauto | exfalso].
  pose proof (length_nonneg (m_sequence s)) as Hlen.
  unfold cursor_ok in Hc. rewrite isEmpty_length in Hc.
  pose proof Hf as Hf'. apply bounds_formed_spec in Hf' as [Hmin Hmax].
  destruct m; cbn [positions_exist] in Hp; cbn [call] in H;
    unfold setCurPoint, insertAfterCurrent, insertBeforeCurrent, append,
      removeCurrent, clear, setPoint, setPoint_at, setPointCoordinate,
      setPointCoordinate_at, setDuration, setDuration_at, setTimeToTarget,
      setTimeToTarget_at in H;
    crack H; fields;
    repeat match goal with
           | E : defaultSequencePoint _ = None |- _ =>
               destruct (defaultSequencePoint_defined s Hf); congruence
           | E : validatePoint _ ?p false = None |- _ =>
               destruct (validatePoint_within s p Hf) as (? & ? & _);
               congruence
           | E : index (m_sequence s) _ = Some _ |- _ =>
               pose proof (stored_length _ _ _ Hs E);
               apply index_Some in E as [E _]
           | E : index _ _ = None |- _ => apply index_None in E
           | E : assign _ _ _ = None |- _ => apply assign_None in E
           | E : removeAt _ _ = None |- _ => apply removeAt_None in E
           end;
    lengths; to_prop; by_cases_if; lia.
Qed.

End CallFacts.

(** ** [load] *)

Section LoadFacts.
Context {impl : SequencePointImpl}.

(** The loop of [load] accepts an array exactly when all its elements stand
    for points of one dimension, and then it has [placed] them in turn. *)
Lemma load_loop_spec a st :
  load_loop a st
  = match parsed a with
    | Some ps =>
        if uniform (l_dim st) ps then Some (fold_left placed ps st) else None
    | None => None
    end.
Proof.
  revert st. induction a as [| v a IH]; intros st; [reflexivity |].
  destruct v as [| b | d | str | arr | o]; try reflexivity.
  cbn [load_loop parsed element_point].
  destruct (fromJson o) as [sp |] eqn:E; [| reflexivity].
  assert (Hcheck :
    forall st1, l_dim st1 = l_dim st ->
      negb (l_dim st1 =? -1) && negb (l_dim st1 =? length_ (point sp))
      = negb ((l_dim st =? -1) || (l_dim st =? length_ (point sp)))).
  { intros st1 ->. rewrite negb_orb. reflexivity. }
  rewrite Hcheck by (destruct (l_index st =? 0), (l_index st =? 1);
                     reflexivity).
  rewrite IH. cbn [l_dim].
  destruct (parsed a) as [ps |]; cbn [uniform fold_left].
  - destruct ((l_dim st =? -1) || (l_dim st =? length_ (point sp)));
      reflexivity.
  - destruct (negb _); reflexivity.
Qed.

Lemma uniform_Forall d ps :
  uniform d ps = true ->
  Forall (fun p => length_ (point p) = match ps with
                                        | [] => d
                                        | p0 :: _ => length_ (point p0)
                                        end) ps.
Proof.
  revert d. induction ps as [| p ps IH]; intros d H; [constructor |].
  cbn [uniform] in H. apply andb_prop in H as [_ H].
  constructor; [reflexivity |].
  specialize (IH _ H). destruct ps as [| q ps]; [constructor |].
  cbn [uniform] in H. apply andb_prop in H as [Hq _].
  pose proof (length_nonneg (point p)).
  apply orb_prop in Hq as [Hq | Hq]; apply Z.eqb_eq in Hq; [lia |].
  rewrite <- Hq in IH. exact IH.
Qed.

(** From the third element on, the loop appends. *)
Lemma fold_placed_tail ps st :
  2 <= l_index st ->
  Forall (fun p => length_ (point p) = l_dim st) ps ->
  fold_left placed ps st
  = mkLoading (l_list st ++ ps) (l_minPoint st) (l_maxPoint st) (l_dim st)
              (l_index st + length_ ps).
Proof.
  revert st. induction ps as [| p ps IH]; intros st Hi Hall.
  - destruct st. cbn. rewrite app_nil_r. f_equal. unfold length_. cbn. lia.
  - inversion Hall as [| ? ? Hp Hps]; subst.
    assert (E : placed st p
                = mkLoading (l_list st ++ [p]) (l_minPoint st) (l_maxPoint st)
                            (l_dim st) (l_index st + 1)).
    { unfold placed.
      destruct (Z.eqb_spec (l_index st) 0); [lia |].
      destruct (Z.eqb_spec (l_index st) 1); [lia |].
      cbn [l_list l_minPoint l_maxPoint l_dim l_index]. rewrite Hp.
      reflexivity. }
    cbn [fold_left]. rewrite E, IH; cbn [l_list l_minPoint l_maxPoint l_dim
                                         l_index]; [| lia | assumption].
    rewrite <- app_assoc. cbn [app]. f_equal.
    unfold length_. cbn [List.length]. lia.
Qed.

(** What the loop leaves of a non-empty array of points of one dimension. *)
Lemma fold_placed_init p0 ps :
  uniform (-1) (p0 :: ps) = true ->
  fold_left placed (p0 :: ps)
    (mkLoading [] SequencePoint_new SequencePoint_new (-1) 0)
  = mkLoading (tl ps) p0 (hd SequencePoint_new ps) (length_ (point p0))
              (1 + length_ ps).
Proof.
  intros Hu. apply uniform_Forall in Hu.
  inversion Hu as [| ? ? _ Hps]; subst.
  destruct ps as [| p1 ps]; [reflexivity |].
  inversion Hps as [| ? ? Hp1 Hps']; subst.
  cbn [fold_left].
  change (placed (placed (mkLoading [] SequencePoint_new SequencePoint_new
                                    (-1) 0) p0) p1)
    with (mkLoading [] p0 p1 (length_ (point p1)) 2).
  rewrite fold_placed_tail; cbn [l_list l_minPoint l_maxPoint l_dim l_index];
    [| lia | rewrite Hp1; assumption].
  rewrite Hp1. cbn [app tl hd]. f_equal.
  unfold length_. cbn [List.length]. lia.
Qed.

Lemma with_point_id p : with_point p (point p) = p.
Proof. destruct p. reflexivity. Qed.

Lemma bounds_formed_new dim lo hi : bounds_formed (Sequence_new dim lo hi) = true.
Proof.
  unfold bounds_formed. cbn. rewrite !length_resized, Nat.eqb_refl.
  reflexivity.
Qed.

(** The second loop of [load] never makes an undefined access: it stores
    [validatePoint] of every point, in order. *)
Lemma appendValidated_spec s l :
  bounds_formed s = true ->
  exists l',
    appendValidated s l = Some (with_sequence (m_sequence s ++ l') s)
    /\ Forall2 (fun p q => validatePoint s p false = Some q) l l'.
Proof.
  revert s. induction l as [| sp l IH]; intros s Hf.
  - exists []. split; [| constructor].
    destruct s. cbn. rewrite app_nil_r. reflexivity.
  - destruct (validatePoint_within s sp Hf) as (q & E & _).
    destruct (IH (with_sequence (m_sequence s ++ [q]) s) Hf)
      as (l' & E' & Hall).
    exists (q :: l'). split; [| constructor; assumption].
    cbn [appendValidated]. rewrite E, E'.
    destruct s. cbn. rewrite <- app_assoc. reflexivity.
Qed.

Lemma parsed_nil a : parsed a = Some [] -> a = [].
Proof.
  destruct a as [| v a]; [reflexivity |]. cbn.
  destruct (element_point v), (parsed a); discriminate.
Qed.

Lemma parsed_cons a p0 ps :
  parsed a = Some (p0 :: ps) ->
  exists o0 rest,
    a = JObject o0 :: rest /\ fromJson o0 = Some p0 /\ parsed rest = Some ps.
Proof.
  destruct a as [| v a]; [discriminate |]. cbn [parsed].
  destruct (element_point v) as [p |] eqn:E; [| discriminate].
  destruct (parsed a) as [qs |] eqn:Ea; [| discriminate].
  intros H. injection H as -> ->.
  destruct v; try discriminate E. exists o, a. auto.
Qed.

Lemma parsed_None a :
  parsed a = None ->
  (exists v, In v a /\ forall o, v <> JObject o)
  \/ (exists o, In (JObject o) a /\ fromJson o = None).
Proof.
  induction a as [| v a IH]; [discriminate |]. cbn [parsed].
  destruct (element_point v) as [p |] eqn:E.
  - destruct (parsed a); [discriminate |]. intros _.
    destruct IH as [(w & Hw & Hno) | (o & Ho & Hfail)]; [reflexivity | |].
    + left. exists w. split; [right |]; assumption.
    + right. exists o. split; [right |]; assumption.
  - intros _. destruct v as [| b | d | str | arr | o];
      try (left; eexists; split; [left; reflexivity | discriminate]).
    right. exists o. split; [left; reflexivity | exact E].
Qed.

Lemma parsed_In a ps v :
  parsed a = Some ps -> In v a ->
  exists o p, v = JObject o /\ fromJson o = Some p /\ In p ps.
Proof.
  revert ps. induction a as [| w a IH]; intros ps H Hv; [destruct Hv |].
  cbn [parsed] in H.
  destruct (element_point w) as [p |] eqn:E; [| discriminate].
  destruct (parsed a) as [qs |]; [| discriminate].
  injection H as <-. destruct Hv as [-> | Hv].
  - destruct v; try discriminate E. exists o, p. repeat split; [assumption |].
    left. reflexivity.
  - destruct (IH qs eq_refl Hv) as (o & q & -> & Hq & Hin).
    exists o, q. repeat split; [assumption | right; assumption].
Qed.

Lemma parsed_In_inv a ps p :
  parsed a = Some ps -> In p ps ->
  exists o, In (JObject o) a /\ fromJson o = Some p.
Proof.
  revert ps. induction a as [| w a IH]; intros ps H Hp.
  - injection H as <-. destruct Hp.
  - cbn [parsed] in H.
    destruct (element_point w) as [q |] eqn:E; [| discriminate].
    destruct (parsed a) as [qs |]; [| discriminate].
    injection H as <-. destruct Hp as [-> | Hp].
    + destruct w; try discriminate E. exists o. split; [left |]; auto.
    + destruct (IH qs eq_refl Hp) as (o & Ho & Hq).
      exists o. split; [right |]; assumption.
Qed.

Lemma uniform_false d ps :
  0 <= d -> uniform d ps = false ->
  exists p, In p ps /\ length_ (point p) <> d.
Proof.
  intros Hd. induction ps as [| p ps IH]; [discriminate |].
  cbn [uniform]. destruct (Z.eqb_spec d (-1)); [lia |]. cbn [orb].
  destruct (Z.eqb_spec d (length_ (point p))) as [<- | Hne].
  - cbn [andb]. intros H. destruct (IH H) as (q & Hq & Hlen).
    exists q. split; [right |]; assumption.
  - intros _. exists p. split; [left; reflexivity | congruence].
Qed.

(** What [load] makes of a non-empty array of points of one dimension. *)
Lemma load_points a p0 ps :
  parsed a = Some (p0 :: ps) -> uniform (-1) (p0 :: ps) = true ->
  exists l',
    load (DocArray a)
    = Some (with_curPoint (if isEmpty (tl ps) then -1 else 0)
              (with_sequence l'
                 (Sequence_new (List.length (point p0)) p0
                               (hd SequencePoint_new ps))))
    /\ Forall2
         (fun p q =>
            validatePoint (Sequence_new (List.length (point p0)) p0
                                        (hd SequencePoint_new ps))
                          p false = Some q)
         (tl ps) l'.
Proof.
  intros Hp Hu. unfold load.
  rewrite load_loop_spec, Hp. cbn [l_dim]. rewrite Hu, fold_placed_init by exact Hu.
  cbn [l_index l_dim l_list l_minPoint l_maxPoint].
  pose proof (length_nonneg ps) as Hlen.
  destruct (Z.ltb_spec (1 + length_ ps) 1); [lia |].
  unfold length_ at 1. rewrite Nat2Z.id.
  set (s0 := Sequence_new (List.length (point p0)) p0
                          (hd SequencePoint_new ps)).
  destruct (appendValidated_spec s0 (tl ps) (bounds_formed_new _ _ _))
    as (l' & -> & Hall).
  exists l'. split; [| exact Hall].
  destruct (tl ps); [| reflexivity].
  inversion Hall. reflexivity.
Qed.

(** [load] on the documents the specification has it refuse. *)
Lemma load_refused json :
  load_refuses json -> load json = Some Sequence_default.
Proof.
  destruct json as [| a | o]; try reflexivity. cbn [load_refuses].
  intros H. unfold load. rewrite load_loop_spec.
  destruct (parsed a) as [ps |] eqn:Hp; [| reflexivity].
  destruct H as [(v & Hv & Hno) | [(o & Ho & Hfail) | [H | ->]]].
  - destruct (parsed_In _ _ _ Hp Hv) as (o & _ & -> & _). destruct (Hno o).
    reflexivity.
  - destruct (parsed_In _ _ _ Hp Ho) as (o' & p & E & Hp' & _).
    injection E as <-. congruence.
  - destruct H as (o0 & p0 & rest & o & p & -> & H0 & Ho & Hop & Hlen).
    destruct (parsed_In _ _ _ Hp Ho) as (o' & p' & E & Hp' & Hin).
    injection E as <-. assert (p' = p) as -> by congruence.
    cbn [parsed element_point] in Hp. rewrite H0 in Hp.
    destruct (parsed rest) as [qs |]; [| discriminate].
    injection Hp as <-. cbn [l_dim].
    destruct (uniform (-1) (p0 :: qs)) eqn:Hu; [| reflexivity].
    apply uniform_Forall in Hu. rewrite Forall_forall in Hu.
    specialize (Hu _ Hin). unfold length_ in Hu. lia.
  - injection Hp as <-. reflexivity.
Qed.

(** The documents [load] accepts: the remaining ones. *)
Lemma load_accepts json :
  ~ load_refuses json ->
  exists a p0 ps,
    json = DocArray a /\ parsed a = Some (p0 :: ps)
    /\ uniform (-1) (p0 :: ps) = true.
Proof.
  destruct json as [| a | o]; cbn [load_refuses]; intros H;
    try (destruct H; exact I).
  destruct (parsed a) as [[| p0 ps] |] eqn:Hp.
  - apply parsed_nil in Hp. tauto.
  - exists a, p0, ps. split; [reflexivity | split; [exact Hp |]].
    destruct (uniform (-1) (p0 :: ps)) eqn:Hu; [reflexivity | exfalso].
    cbn [uniform] in Hu. cbn [Z.eqb orb andb] in Hu.
    destruct (uniform_false _ _ (length_nonneg _) Hu) as (p & Hin & Hlen).
    destruct (parsed_cons _ _ _ Hp) as (o0 & rest & -> & H0 & Hrest).
    destruct (parsed_In_inv _ _ _ Hrest Hin) as (o & Ho & Hop).
    apply H. right. right. left.
    exists o0, p0, rest, o, p. repeat split; try assumption.
    + right. assumption.
    + unfold length_ in Hlen. lia.
  - apply parsed_None in Hp. tauto.
Qed.

End LoadFacts.

(** * The claims of the specification *)

Section Invariants.
Context {impl : SequencePointImpl}.

(** C1.  On a valid Sequence whose bounds are ordered ([min <= max] in every
    coordinate, in the duration and in the timeToTarget) and whose stored
    points all have [pointDim] coordinates and lie within [[min, max]], a
    call of any mutator leaves every stored point with [pointDim]
    coordinates and within [[min, max]], the bounds being those of before
    the call.  The call is defined whenever the cursor is -1 or a position
    of the list and the positions a positional setter names exist. *)
Theorem mutators_keep_points_within (m : Mutator) (s : Sequence) :
  isValid s = true -> bounds_formed s = true -> bounds_ordered s = true ->
  stored_within s = true ->
  (cursor_ok s = true -> positions_exist m s = true ->
   exists s' e, run (call m) s = Some (s', e))
  /\ (forall s' e,
        run (call m) s = Some (s', e) ->
        same_bounds s s' /\ stored_within s' = true).
Proof.
  intros _ Hf Ho Hs. split.
  - intros Hc Hp. apply call_defined; assumption.
  - intros s' e H. split.
    + eapply call_same_bounds, H.
    + eapply call_stored_within; eassumption.
Qed.

Lemma load_cursor_ok json s : load json = Some s -> cursor_ok s = true.
Proof.
  destruct json as [| a | o]; try (intros H; injection H as <-; reflexivity).
  destruct (parsed a) as [[| p0 ps] |] eqn:Hp.
  - apply parsed_nil in Hp as ->. intros H. injection H as <-. reflexivity.
  - destruct (uniform (-1) (p0 :: ps)) eqn:Hu.
    + destruct (load_points a p0 ps Hp Hu) as (l' & -> & Hall).
      intros H. injection H as <-.
      apply Forall2_length in Hall.
      unfold cursor_ok. fields.
      destruct (tl ps), l'; try discriminate Hall; [reflexivity |].
      cbn [isEmpty]. apply andb_true_intro. split; [reflexivity |].
      apply Z.leb_le. unfold length_. cbn [List.length]. lia.
    + unfold load. rewrite load_loop_spec, Hp. cbn [l_dim]. rewrite Hu.
      intros H. injection H as <-. reflexivity.
  - unfold load. rewrite load_loop_spec, Hp.
    intros H. injection H as <-. reflexivity.
Qed.

Lemma reachable_cursor_ok s : reachable s -> cursor_ok s = true.
Proof.
  induction 1 as [dim lo hi | json s H | s m s' e _ IH H].
  - reflexivity.
  - eapply load_cursor_ok, H.
  - eapply call_cursor_ok; eassumption.
Qed.

Lemma load_bounds_formed json s : load json = Some s -> bounds_formed s = true.
Proof.
  destruct json as [| a | o]; try (intros H; injection H as <-; reflexivity).
  destruct (parsed a) as [[| p0 ps] |] eqn:Hp.
  - apply parsed_nil in Hp as ->. intros H. injection H as <-. reflexivity.
  - destruct (uniform (-1) (p0 :: ps)) eqn:Hu.
    + destruct (load_points a p0 ps Hp Hu) as (l' & -> & _).
      intros H. injection H as <-. apply bounds_formed_new.
    + unfold load. rewrite load_loop_spec, Hp. cbn [l_dim]. rewrite Hu.
      intros H. injection H as <-. reflexivity.
  - unfold load. rewrite load_loop_spec, Hp.
    intros H. injection H as <-. reflexivity.
Qed.

(** The bounds of every object a program can hold have [pointDim]
    coordinates. *)
Lemma reachable_bounds_formed s : reachable s -> bounds_formed s = true.
Proof.
  induction 1 as [dim lo hi | json s H | s m s' e _ IH H].
  - apply bounds_formed_new.
  - eapply load_bounds_formed, H.
  - apply call_same_bounds in H as (Hd & Hmin & Hmax).
    unfold bounds_formed in *. rewrite Hd, Hmin, Hmax. exact IH.
Qed.

(** C6.  In every state reached from a constructed or a loaded Sequence by
    calls of mutators, [curPoint] is -1 if the point list is empty and
    satisfies [0 <= curPoint <= length - 1] if it is not. *)
Theorem reachable_cursor (s : Sequence) :
  reachable s ->
  (m_sequence s = [] -> m_curPoint s = -1)
  /\ (m_sequence s <> [] ->
      0 <= m_curPoint s <= length_ (m_sequence s) - 1).
Proof.
  intros H. apply reachable_cursor_ok in H. unfold cursor_ok in H.
  destruct (m_sequence s) as [| p l] eqn:E; cbn [isEmpty] in H.
  - split; [intros _; apply Z.eqb_eq, H | congruence].
  - split; [discriminate |]. intros _.
    apply andb_prop in H as [H1 H2].
    apply Z.leb_le in H1. apply Z.leb_le in H2. lia.
Qed.

(** C9.  On a valid Sequence (its cursor -1 if it is empty and a position of
    the list if not, as in every reachable state), [clear()] leaves the
    point list empty and
    [curPoint] at -1, emitting [numPointsChanged] then [curPointChanged] when
    the list was not empty, and the modified flag is set after the call in
    all cases ([isModifiedChanged] being emitted when it was not set
    before); on an already empty Sequence nothing but the flag changes. *)
Theorem clear_empties_and_marks (s : Sequence) :
  isValid s = true -> cursor_ok s = true ->
  exists s',
    run clear s
    = Some (s', (if isEmpty (m_sequence s) then []
                 else [numPointsChanged; curPointChanged])
                ++ (if m_isModified s then [] else [isModifiedChanged]))
    /\ m_sequence s' = [] /\ m_curPoint s' = -1 /\ m_isModified s' = true
    /\ (m_sequence s = [] -> s' = with_isModified true s).
Proof.
  intros Hv Hc. unfold cursor_ok in Hc.
  unfold run, clear, bind, this, store, emit, ret, sequenceModified.
  rewrite Hv. cbn [negb].
  destruct s as [dim lo hi [| p l] c [|]]; cbn in Hc |- *;
    try (apply Z.eqb_eq in Hc; subst c);
    eexists; (split; [reflexivity |]); repeat split; discriminate.
Qed.

End Invariants.

Section Persistence.
Context {impl : SequencePointImpl}.

(** C4.  [save(filename)] returns false on an invalid Sequence.  On a valid
    one it returns false and leaves the modified flag as it was before the
    call when the file cannot be opened or the write reports an error; it
    returns true, with the flag cleared, exactly when the write completes
    without error.  Nothing else of the object changes and no signal is
    emitted. *)
Theorem save_file_result (io : FileOutcome) (s : Sequence) :
  let ok := isValid s && match io with WriteSucceeds => true | _ => false end in
  exists s',
    save_file io s = Some (ok, s', [])
    /\ (ok = false -> s' = s)
    /\ (ok = true -> s' = with_isModified false s).
Proof.
  unfold save_file, save, bind, this, store, ret.
  destruct s as [dim lo hi l c b].
  destruct (isValid _) eqn:Hv; cbn [negb andb]; rewrite ?Hv; cbn [negb];
    destruct io; eexists; (split; [reflexivity |]); split;
    try reflexivity; discriminate.
Qed.

(** C10.  An array whose only element is an object that [fromJson] reads as
    a point of dimension [d > 0] is loaded as a valid Sequence of dimension
    [d]: its min is that point, its max is a default-constructed
    [SequencePoint] with the coordinates padded with 0.0 to length [d], the
    point list is empty, [curPoint] is -1 and the modified flag is false. *)
Theorem load_single_element (o : QJsonObject) (p : SequencePoint) :
  fromJson o = Some p -> (0 < List.length (point p))%nat ->
  exists s,
    load (DocArray [JObject o]) = Some s
    /\ isValid s = true
    /\ m_pointDim s = List.length (point p)
    /\ m_min s = p
    /\ m_max s = mkPoint (repeat Double.zero (List.length (point p)))
                         default_duration default_timeToTarget
    /\ m_sequence s = [] /\ m_curPoint s = -1 /\ m_isModified s = false.
Proof.
  intros Hp Hd.
  assert (Hparsed : parsed [JObject o] = Some [p]).
  { cbn [parsed element_point]. rewrite Hp. reflexivity. }
  assert (Hu : uniform (-1) [p] = true).
  { cbn [uniform]. rewrite andb_true_r. reflexivity. }
  destruct (load_points _ _ _ Hparsed Hu) as (l' & -> & Hall).
  inversion Hall; subst. eexists. split; [reflexivity |].
  cbn [tl hd isEmpty]. unfold Sequence_new, isValid. fields.
  rewrite resized_id, with_point_id by reflexivity.
  repeat split.
  - destruct (List.length (point p)); [lia | reflexivity].
  - unfold SequencePoint_new, with_point, resized. cbn [point List.length].
    destruct (Nat.ltb_spec 0 (List.length (point p))); [| lia].
    rewrite Nat.sub_0_r. reflexivity.
Qed.

(** C3, as the code has it.  [load] returns the default Sequence when the
    document is not an array, an element is not an object, an element fails
    [fromJson], the dimension of an element disagrees with that of the
    first, or the array is empty.  Otherwise the elements are points
    [p0 :: ps] of one dimension [d], and [load] returns the Sequence of
    dimension [d] (valid exactly when [d > 0]) whose min is [p0], whose max
    is the second element if there is one and a default-constructed point
    padded with 0.0 to [d] coordinates if there is none, whose point list is
    [validatePoint] of the elements from the third on, in order, whose
    [curPoint] is 0 if that list is not empty and -1 if it is, and whose
    modified flag is false. *)
Theorem load_result (json : QJsonDocument) :
  (load_refuses json -> load json = Some Sequence_default)
  /\ (~ load_refuses json ->
      exists a p0 ps s,
        json = DocArray a /\ parsed a = Some (p0 :: ps)
        /\ Forall (fun p => List.length (point p) = List.length (point p0)) ps
        /\ load json = Some s
        /\ m_pointDim s = List.length (point p0)
        /\ m_min s = p0
        /\ m_max s = match ps with
                     | [] => mkPoint (repeat Double.zero
                                        (List.length (point p0)))
                                     default_duration default_timeToTarget
                     | p1 :: _ => p1
                     end
        /\ Forall2 (fun p q => validatePoint s p false = Some q)
                   (tl ps) (m_sequence s)
        /\ m_curPoint s = (if isEmpty (m_sequence s) then -1 else 0)
        /\ m_isModified s = false).
Proof.
  split; [apply load_refused |].
  intros H. destruct (load_accepts json H) as (a & p0 & ps & -> & Hp & Hu).
  destruct (load_points a p0 ps Hp Hu) as (l' & E & Hall).
  pose proof (uniform_Forall _ _ Hu) as Hdims.
  inversion Hdims as [| ? ? _ Hps]; subst.
  assert (Hlens : Forall (fun p => List.length (point p)
                                   = List.length (point p0)) ps).
  { eapply Forall_impl; [| exact Hps]. cbv beta. unfold length_. lia. }
  exists a, p0, ps. eexists.
  split; [reflexivity |]. split; [exact Hp |]. split; [exact Hlens |].
  split; [exact E |]. fields. unfold Sequence_new at 1 2 3. fields.
  rewrite resized_id, with_point_id by reflexivity.
  split; [reflexivity |]. split; [reflexivity |]. split.
  { destruct ps as [| p1 ps]; cbn [hd].
    - unfold SequencePoint_new, with_point, resized. cbn [point List.length].
      destruct (Nat.ltb_spec 0 (List.length (point p0))).
      + rewrite Nat.sub_0_r. reflexivity.
      + replace (List.length (point p0)) with O by lia. reflexivity.
    - inversion Hlens as [| ? ? H1 _]; subst.
      rewrite resized_id, with_point_id by exact H1. reflexivity. }
  split; [exact Hall |]. split; [| reflexivity].
  apply Forall2_length in Hall.
  destruct (tl ps), l'; try discriminate Hall; reflexivity.
Qed.

End Persistence.

(** ** The round trip through JSON *)

Lemma numbers_map_JDouble (pt : list double) :
  numbers (map JDouble pt) = Some pt.
Proof.
  induction pt as [| x pt IH]; [reflexivity |].
  cbn [map numbers]. rewrite IH. reflexivity.
Qed.

(** The members modelled from the specification: [fromJson] reads back what
    [toJson] wrote. *)
Lemma modelled_fromJson_toJson (p : SequencePoint) :
  ints_of_point p = true ->
  SequencePoint_fromJson (SequencePoint_toJson p) = Some p.
Proof.
  unfold ints_of_point. intros H. apply andb_prop in H as [Hd Ht].
  unfold SequencePoint_fromJson, SequencePoint_toJson.
  cbn [value String.eqb Ascii.eqb Bool.eqb andb].
  rewrite numbers_map_JDouble, !IntFacts.of_double_of_int by assumption.
  destruct p. reflexivity.
Qed.

Section RoundTrip.
Context {impl : SequencePointImpl}.
Hypothesis fromJson_toJson :
  forall p, ints_of_point p = true -> fromJson (toJson p) = Some p.

Lemma parsed_toJson (l : list SequencePoint) :
  forallb ints_of_point l = true ->
  parsed (map (fun sp => JObject (toJson sp)) l) = Some l.
Proof.
  induction l as [| p l IH]; [reflexivity |].
  cbn [forallb map parsed element_point]. intros H.
  apply andb_prop in H as [Hp Hl].
  rewrite fromJson_toJson, IH by assumption. reflexivity.
Qed.

Lemma uniform_within (s : Sequence) (l : list SequencePoint) :
  forallb (within s) l = true ->
  uniform (Z.of_nat (m_pointDim s)) l = true.
Proof.
  induction l as [| p l IH]; [reflexivity |].
  cbn [forallb uniform]. intros H. apply andb_prop in H as [Hp Hl].
  apply within_spec in Hp as [Hlen _].
  unfold length_. rewrite Hlen, Z.eqb_refl, orb_true_r. cbn [andb]. auto.
Qed.

(** C2.  For a valid Sequence [s] whose stored points lie within
    [[min, max]], [load(s.save())] is a valid Sequence with the [pointDim],
    the min and the max of [s], with the points of [s] in their order (equal
    as [operator==] has it), and with the modified flag false; [save()]
    itself returns the document, clears the flag of [s] and emits nothing.
    [fromJson] is taken to read back what [toJson] writes. *)
Theorem load_save_round_trip (s : Sequence) :
  isValid s = true -> bounds_formed s = true -> stored_within s = true ->
  ints_of_sequence s = true ->
  exists doc s',
    save s = Some (doc, with_isModified false s, [])
    /\ load doc = Some s'
    /\ isValid s' = true
    /\ m_pointDim s' = m_pointDim s
    /\ m_min s' = m_min s
    /\ m_max s' = m_max s
    /\ same_points (m_sequence s') (m_sequence s)
    /\ m_isModified s' = false.
Proof.
  intros Hv Hf Hs Hi.
  unfold ints_of_sequence in Hi. apply andb_prop in Hi as [Hi Hil].
  apply andb_prop in Hi as [Himin Himax].
  pose proof Hf as Hf'. unfold bounds_formed in Hf'.
  apply andb_prop in Hf' as [Hmin Hmax].
  apply Nat.eqb_eq in Hmin. apply Nat.eqb_eq in Hmax.
  unfold save, bind, this, store, ret. rewrite Hv. cbn [negb].
  set (a := JObject (toJson (m_min s)) :: JObject (toJson (m_max s))
            :: map (fun sp => JObject (toJson sp)) (m_sequence s)).
  assert (Hp : parsed a = Some (m_min s :: m_max s :: m_sequence s)).
  { unfold a. cbn [parsed element_point].
    rewrite !fromJson_toJson, parsed_toJson by assumption. reflexivity. }
  assert (Hu : uniform (-1) (m_min s :: m_max s :: m_sequence s) = true).
  { assert (Emin : length_ (point (m_min s)) = Z.of_nat (m_pointDim s))
      by (unfold length_; congruence).
    assert (Emax : length_ (point (m_max s)) = Z.of_nat (m_pointDim s))
      by (unfold length_; congruence).
    cbn [uniform]. rewrite Emin, Emax, !Z.eqb_refl, orb_true_r.
    cbn [orb andb]. apply uniform_within. exact Hs. }
  destruct (load_points a _ _ Hp Hu) as (l' & E & Hall).
  cbn [tl hd] in E, Hall. unfold Sequence_new in E, Hall.
  rewrite Hmin, !resized_id, !with_point_id in E, Hall by assumption.
  exists (DocArray a). eexists. split; [reflexivity |].
  split; [exact E |].
  unfold isValid in *. fields.
  repeat split; try assumption.
  unfold same_points. unfold stored_within in Hs.
  revert Hall Hs. generalize (m_sequence s) as l. clear.
  intros l Hall. induction Hall as [| p q l l' Hq _ IH]; [constructor |].
  cbn [forallb]. intros H. apply andb_prop in H as [Hp Hl].
  constructor; [| auto].
  destruct (validatePoint_fixed
              (mkSequence (m_pointDim s) (m_min s) (m_max s) [] (-1) false)
              p Hp) as (q' & Hq' & Heq).
  rewrite Hq in Hq'. injection Hq' as <-. exact Heq.
Qed.

End RoundTrip.

(** ** Insertion without a current point *)

Lemma wrap_in_range (z : Z) : Int.in_range z = true -> Int.wrap z = z.
Proof.
  unfold Int.in_range, Int.min_int, Int.max_int, Int.wrap. intros H.
  apply andb_prop in H as [H1 H2].
  apply Z.leb_le in H1. apply Z.leb_le in H2.
  rewrite Z.mod_small; lia.
Qed.

(** The midpoint of two ordered [int]s whose sum is an [int]: the division
    truncates, and the clamp leaves the quotient alone. *)
Lemma midpoint_duration (lo hi : Z) :
  lo <= hi -> Int.in_range (hi + lo) = true ->
  Int.std_min hi (Int.std_max lo (Int.div (Int.add hi lo) 2))
  = Z.quot (hi + lo) 2.
Proof.
  intros Hle Hr. unfold Int.div, Int.add. rewrite (wrap_in_range _ Hr).
  assert (Hq : lo <= Z.quot (hi + lo) 2 <= hi)
    by (Z.to_euclidean_division_equations; lia).
  rewrite wrap_in_range.
  - apply IntFacts.int_clamp_fixed; lia.
  - unfold Int.in_range, Int.min_int, Int.max_int in *.
    apply andb_prop in Hr as [H1 H2].
    apply Z.leb_le in H1. apply Z.leb_le in H2.
    apply andb_true_intro. split; apply Z.leb_le;
      Z.to_euclidean_division_equations; lia.
Qed.

Section Insertion.
Context {impl : SequencePointImpl}.

Lemma clamped_midpoints_nth n lo hi mids pt :
  midpoints n hi lo = Some mids -> limited lo hi mids = Some pt ->
  forall i l h,
    (i < n)%nat -> nth_error lo i = Some l -> nth_error hi i = Some h ->
    nth_error pt i
    = Some (Double.std_min h
              (Double.std_max l (Double.div (Double.add h l) Double.two))).
Proof.
  revert lo hi mids pt. induction n as [| n IH]; intros lo hi mids pt Hm Hl i l h Hi;
    [lia |].
  cbn [midpoints] in Hm.
  destruct hi as [| h0 hi]; [discriminate |].
  destruct lo as [| l0 lo]; [discriminate |].
  destruct (midpoints n hi lo) as [mids' |] eqn:Em; [| discriminate].
  injection Hm as <-. cbn [limited] in Hl.
  destruct (limited lo hi mids') as [pt' |] eqn:El; [| discriminate].
  injection Hl as <-.
  destruct i as [| i]; cbn [nth_error].
  - intros H1 H2. injection H1 as <-. injection H2 as <-. reflexivity.
  - apply (IH _ _ _ _ Em El). lia.
Qed.

(** [insertAfterCurrent] on a valid Sequence whose cursor is -1. *)
Lemma insertAfterCurrent_default s d p :
  isValid s = true -> m_curPoint s = -1 ->
  defaultSequencePoint s = Some d -> validatePoint s d false = Some p ->
  run insertAfterCurrent s
  = Some (with_isModified true
            (with_curPoint 0 (with_sequence (m_sequence s ++ [p]) s)),
          [numPointsChanged; curPointChanged]
          ++ (if m_isModified s then [] else [isModifiedChanged])).
Proof.
  intros Hv Hc Hd Hp.
  unfold run, insertAfterCurrent, bind, this, store, emit, ret, defined,
    sequenceModified.
  rewrite Hv, Hc, Hd, Hp. cbn [negb Z.eqb].
  destruct s as [dim lo hi l c [|]]; cbn in Hc |- *; subst c; reflexivity.
Qed.

(** The example of section 8 of the specification, on the code: the point
    stored is [{5,5,5; dur 50}] with the timeToTarget of a
    default-constructed point clamped into [[0, 100]]. *)
Lemma example_insertAfterCurrent :
  run insertAfterCurrent example_empty
  = Some (mkSequence 3 example_min example_max
            [mkPoint [Double.of_int 5; Double.of_int 5; Double.of_int 5] 50
                     (Int.std_min 100 (Int.std_max 0 default_timeToTarget))]
            0 true,
          [numPointsChanged; curPointChanged; isModifiedChanged]).
Proof.
  erewrite insertAfterCurrent_default; reflexivity.
Qed.

(** C5, as the code has it.  On the empty valid Sequence with bounds
    [{0,0,0; dur 0; ttt 0}] and [{10,10,10; dur 100; ttt 100}],
    [insertAfterCurrent()] stores exactly one point, with coordinates
    [(5,5,5)], duration 50 and a timeToTarget within [[0, 100]], and sets
    [curPoint] to 0.  On every valid Sequence with [curPoint == -1] whose
    bounds are ordered and the sum of whose two duration bounds is an [int],
    it appends one point and sets [curPoint] to 0; the point has [pointDim]
    coordinates, coordinate [i] is [(max.point[i] + min.point[i]) / 2.0]
    computed on doubles and clamped into [[min.point[i], max.point[i]]], its
    duration is [(max.duration + min.duration) / 2], the division
    truncating, and its timeToTarget lies within the bounds of the
    timeToTarget. *)
Theorem default_point_inserted :
  (exists s' e p,
      run insertAfterCurrent example_empty = Some (s', e)
      /\ m_sequence s' = [p] /\ m_curPoint s' = 0
      /\ point p = [Double.of_int 5; Double.of_int 5; Double.of_int 5]
      /\ duration p = 50
      /\ 0 <= timeToTarget p <= 100)
  /\ (forall s : Sequence,
        isValid s = true -> m_curPoint s = -1 -> bounds_formed s = true ->
        bounds_ordered s = true ->
        Int.in_range (duration (m_max s) + duration (m_min s)) = true ->
        exists s' e p,
          run insertAfterCurrent s = Some (s', e)
          /\ m_sequence s' = m_sequence s ++ [p] /\ m_curPoint s' = 0
          /\ List.length (point p) = m_pointDim s
          /\ (forall i lo hi,
                nth_error (point (m_min s)) i = Some lo ->
                nth_error (point (m_max s)) i = Some hi ->
                nth_error (point p) i
                = Some (Double.std_min hi
                          (Double.std_max lo
                             (Double.div (Double.add hi lo) Double.two))))
          /\ duration p = Z.quot (duration (m_max s) + duration (m_min s)) 2
          /\ timeToTarget (m_min s) <= timeToTarget p
             <= timeToTarget (m_max s)).
Proof.
  split.
  { rewrite example_insertAfterCurrent. do 3 eexists.
    split; [reflexivity |]. repeat (split; [reflexivity |]).
    apply (IntFacts.int_clamp_within 0 100). lia. }
  intros s Hv Hc Hf Ho Hsum.
  destruct (defaultSequencePoint_defined s Hf) as (d & Hd).
  destruct (validatePoint_within s d Hf) as (p & Hp & Hlen & Hin).
  specialize (Hin Ho). apply within_spec in Hin as (_ & _ & _ & Ht).
  rewrite (insertAfterCurrent_default s d p Hv Hc Hd Hp).
  do 3 eexists. split; [reflexivity |]. fields.
  split; [reflexivity |]. split; [reflexivity |]. split; [exact Hlen |].
  apply bounds_ordered_spec in Ho as (_ & Hod & _).
  unfold defaultSequencePoint in Hd.
  destruct (midpoints _ _ _) as [mids |] eqn:Em; [| discriminate].
  injection Hd as <-.
  unfold validatePoint in Hp. cbn [point with_point with_duration duration
                                   timeToTarget SequencePoint_new] in Hp.
  assert (Hmids : List.length mids = m_pointDim s).
  { destruct (midpoints_defined (m_pointDim s) (point (m_max s))
                (point (m_min s))) as (m' & Em' & Hl').
    - apply bounds_formed_spec in Hf. unfold length_ in Hf. lia.
    - apply bounds_formed_spec in Hf. unfold length_ in Hf. lia.
    - congruence. }
  rewrite (resized_id _ _ Hmids) in Hp.
  destruct (limited _ _ mids) as [pt |] eqn:El; [| discriminate].
  injection Hp as <-. cbn [point duration timeToTarget] in *.
  split; [| split; [apply midpoint_duration; assumption | exact Ht]].
  intros i lo hi Hlo Hhi.
  eapply clamped_midpoints_nth; try eassumption.
  apply bounds_formed_spec in Hf as [Hmin _]. unfold length_ in Hmin.
  assert (i < List.length (point (m_min s)))%nat
    by (apply nth_error_Some; congruence).
  lia.
Qed.

End Insertion.

Section Signals.
Context {impl : SequencePointImpl}.

(** C7, as the code has it.  [insertBeforeCurrent()] on a valid Sequence:
    without a current point it emits [curPointChanged] first, then
    [numPointsChanged], then [curPointValuesChanged], and sets [curPoint] to
    0; with a current point it emits [numPointsChanged], then
    [curPointValuesChanged], and leaves [curPoint] as it is.  In both cases
    [isModifiedChanged] follows when the flag was not set before. *)
Theorem insertBeforeCurrent_signals (s : Sequence) :
  isValid s = true -> bounds_formed s = true -> cursor_ok s = true ->
  exists s' e,
    run insertBeforeCurrent s = Some (s', e)
    /\ e = (if m_curPoint s =? -1
            then [curPointChanged; numPointsChanged; curPointValuesChanged]
            else [numPointsChanged; curPointValuesChanged])
           ++ (if m_isModified s then [] else [isModifiedChanged])
    /\ m_curPoint s' = (if m_curPoint s =? -1 then 0 else m_curPoint s).
Proof.
  intros Hv Hf Hc.
  cbv beta iota delta [run insertBeforeCurrent bind this store emit ret
                        defined sequenceModified].
  rewrite Hv. cbn [negb].
  destruct (Z.eqb_spec (m_curPoint s) (-1)) as [E | E].
  - destruct (defaultSequencePoint_defined s Hf) as (d & ->).
    destruct (validatePoint_within s d Hf) as (p & -> & _).
    fields. destruct (m_isModified s); cbn [negb];
      do 2 eexists; repeat split.
  - assert (Hi : 0 <= m_curPoint s < length_ (m_sequence s)).
    { unfold cursor_ok in Hc. rewrite isEmpty_length in Hc.
      destruct (Z.eqb_spec (length_ (m_sequence s)) 0); to_prop; lia. }
    destruct (index_defined _ _ Hi) as (c & ->).
    destruct (validatePoint_within s c Hf) as (p & -> & _).
    fields. destruct (m_isModified s); cbn [negb];
      do 2 eexists; repeat split.
Qed.

End Signals.

(** C8, as the code has it.  [removeCurrent()] on a valid Sequence of length
    1 leaves it empty with [curPoint == -1]; then [pointCoordinate(c)],
    [pointDuration()] and [pointTimeToTarget()] return 0.0, 0 and 0, while
    [point()] reads [m_sequence[-1]], an access outside the list. *)
Theorem accessors_after_last_removed (s : Sequence) (p : SequencePoint) :
  isValid s = true -> m_sequence s = [p] -> m_curPoint s = 0 ->
  exists s' e,
    run removeCurrent s = Some (s', e)
    /\ m_sequence s' = [] /\ m_curPoint s' = -1
    /\ (forall c, pointCoordinate s' c = Some Double.zero)
    /\ pointDuration s' = Some 0
    /\ pointTimeToTarget s' = Some 0
    /\ point_cur s' = None.
Proof.
  intros Hv Hl Hc.
  cbv beta iota delta [run removeCurrent bind this store emit ret defined
                        sequenceModified].
  rewrite Hv, Hc, Hl. cbn [negb orb Z.eqb]. fields.
  change (removeAt [p] 0) with (Some (@nil SequencePoint)). fields.
  change (0 >=? length_ (@nil SequencePoint)) with true. cbv iota. fields.
  destruct (m_isModified s); cbn [negb]; do 2 eexists; repeat split.
Qed.

(** ** Counterexamples and instances *)

(** The literals of the examples are the doubles they stand for. *)
Example double_literals :
  Double.two = binary_normalize Double.prec Double.emax 2 0 false
  /\ Double.of_int 10 = binary_normalize Double.prec Double.emax 10 0 false
  /\ Double.of_int 5 = binary_normalize Double.prec Double.emax 5 0 false
  /\ Double.of_int (-7) = binary_normalize Double.prec Double.emax (-7) 0 false
  /\ Double.of_int Int.max_int
     = binary_normalize Double.prec Double.emax Int.max_int 0 false.
Proof. vm_compute. repeat split. Qed.

Section Examples.
Context {impl : SequencePointImpl}.

Lemma example_short_insertAfterCurrent s' e :
  run insertAfterCurrent example_short = Some (s', e) ->
  exists p,
    m_sequence s' = [p]
    /\ timeToTarget p = Int.std_min 10 (Int.std_max 0 default_timeToTarget).
Proof.
  erewrite insertAfterCurrent_default; try reflexivity.
  intros H. injection H as <- <-. eexists. split; reflexivity.
Qed.

Lemma example_inverted_insertAfterCurrent s' e :
  run insertAfterCurrent example_inverted = Some (s', e) ->
  exists p, m_sequence s' = [p] /\ duration p = 0.
Proof.
  erewrite insertAfterCurrent_default; try reflexivity.
  intros H. injection H as <- <-. eexists. split; reflexivity.
Qed.

(** On the members modelled from the specification, an array of one point
    object is none of the documents the specification has [load] refuse. *)
Lemma single_not_refused o p :
  fromJson o = Some p -> ~ load_refuses (DocArray [JObject o]).
Proof.
  intros Hp [(v & [<- | []] & Hno) | [(o' & [E | []] & Hfail) | [H | H]]].
  - destruct (Hno o). reflexivity.
  - injection E as <-. congruence.
  - destruct H as (o0 & p0 & rest & o' & p' & E & H0 & [E' | []] & Hp' & Hlen).
    injection E as <- <-. injection E' as <-.
    assert (p0 = p) by congruence. assert (p' = p) by congruence.
    subst. apply Hlen. reflexivity.
  - discriminate H.
Qed.

End Examples.

(** C5, counterexample.  The timeToTarget of the point stored is not the
    midpoint of its bounds: whatever a default-constructed point holds, the
    claim fails on the bounds of the example or on the same bounds with 10
    as the largest timeToTarget.  And with bounds that are not ordered
    (durations 100 and 0) the duration stored is 0, not the midpoint 50. *)
Lemma default_point_not_midpoint :
  ~ (exists impl : SequencePointImpl,
        @midpoint_inserted impl example_empty
        /\ @midpoint_inserted impl example_short)
  /\ ~ (exists impl : SequencePointImpl,
           @midpoint_inserted impl example_inverted).
Proof.
  split.
  - intros (impl & (s1 & e1 & p1 & R1 & S1 & _ & _ & _ & T1)
                 & (s2 & e2 & p2 & R2 & S2 & _ & _ & _ & T2)).
    rewrite example_insertAfterCurrent in R1. injection R1 as <- <-.
    injection S1 as <-. cbn [timeToTarget] in T1.
    destruct (example_short_insertAfterCurrent _ _ R2) as (q & S2' & T2').
    rewrite S2' in S2. injection S2 as <-. rewrite T2' in T2.
    change (Int.div (Int.add (timeToTarget (m_max example_empty))
                       (timeToTarget (m_min example_empty))) 2)
      with 50 in T1.
    change (Int.div (Int.add (timeToTarget (m_max example_short))
                       (timeToTarget (m_min example_short))) 2)
      with 5 in T2.
    unfold Int.std_min, Int.std_max in T1, T2.
    destruct (Z.ltb_spec 0 default_timeToTarget);
      repeat match goal with
             | H : context [?a <? ?b] |- _ => destruct (Z.ltb_spec a b)
             end; lia.
  - intros (impl & s' & e & p & R & S & _ & _ & D & _).
    destruct (example_inverted_insertAfterCurrent _ _ R) as (q & S' & D').
    rewrite S' in S. injection S as <-. rewrite D' in D.
    vm_compute in D. discriminate D.
Qed.

(** C3, counterexample.  With the members modelled from the specification,
    whatever a default-constructed point holds: the array of one point
    object of dimension 3 is loaded without an element 1 to take the max
    from, and the array of one point object of dimension 0 is loaded as an
    invalid Sequence although nothing is wrong with the document. *)
Lemma load_not_as_stated :
  ~ (exists d t, @load_as_stated (SequencePoint_modelled d t) doc_single)
  /\ ~ (exists d t,
           @load_as_stated (SequencePoint_modelled d t) doc_single_dim0).
Proof.
  split.
  - intros (d & t & _ & H).
    destruct H as (a & ps & s & E & Hp & _ & _ & Hmax & _).
    + apply (@single_not_refused (SequencePoint_modelled d t) _ example_min).
      reflexivity.
    + injection E as <-. vm_compute in Hp. injection Hp as <-.
      discriminate Hmax.
  - intros (d & t & [H _] & _).
    apply (@single_not_refused (SequencePoint_modelled d t)
             (SequencePoint_toJson (mkPoint [] 7 3)) (mkPoint [] 7 3));
      [reflexivity |].
    apply H. eexists. split; [vm_compute; reflexivity |].
    repeat split.
Qed.

(** ** Instances of the theorems on the objects of the examples *)

Ltac holds := vm_compute; reflexivity.

Lemma mutators_keep_points_within_witness :
  isValid example_one = true /\ bounds_formed example_one = true
  /\ bounds_ordered example_one = true /\ stored_within example_one = true
  /\ cursor_ok example_one = true
  /\ positions_exist (SetPointCoordinate 1 S754_nan) example_one = true
  /\ exists s' e,
       run (@call impl0 (SetPointCoordinate 1 S754_nan)) example_one
       = Some (s', e)
       /\ same_bounds example_one s' /\ stored_within s' = true.
Proof.
  assert (Hv : isValid example_one = true) by holds.
  assert (Hf : bounds_formed example_one = true) by holds.
  assert (Ho : bounds_ordered example_one = true) by holds.
  assert (Hs : stored_within example_one = true) by holds.
  assert (Hc : cursor_ok example_one = true) by holds.
  assert (Hp : positions_exist (SetPointCoordinate 1 S754_nan) example_one
               = true) by holds.
  repeat (split; [assumption |]).
  destruct (@mutators_keep_points_within impl0
              (SetPointCoordinate 1 S754_nan) example_one Hv Hf Ho Hs)
    as [Hdef Hkeep].
  destruct (Hdef Hc Hp) as (s' & e & E).
  exists s', e. split; [exact E | exact (Hkeep s' e E)].
Defined.

Lemma load_save_round_trip_witness :
  (forall p, ints_of_point p = true ->
             @fromJson impl0 (@toJson impl0 p) = Some p)
  /\ isValid example_one = true /\ bounds_formed example_one = true
  /\ stored_within example_one = true /\ ints_of_sequence example_one = true
  /\ exists doc s',
       @save impl0 example_one
       = Some (doc, with_isModified false example_one, [])
       /\ @load impl0 doc = Some s'
       /\ isValid s' = true
       /\ m_pointDim s' = m_pointDim example_one
       /\ m_min s' = m_min example_one
       /\ m_max s' = m_max example_one
       /\ same_points (m_sequence s') (m_sequence example_one)
       /\ m_isModified s' = false.
Proof.
  assert (Hv : isValid example_one = true) by holds.
  assert (Hf : bounds_formed example_one = true) by holds.
  assert (Hs : stored_within example_one = true) by holds.
  assert (Hi : ints_of_sequence example_one = true) by holds.
  split; [exact modelled_fromJson_toJson |].
  repeat (split; [assumption |]).
  exact (@load_save_round_trip impl0 modelled_fromJson_toJson example_one
           Hv Hf Hs Hi).
Defined.

(** [example_one] is what [insertAfterCurrent()] and then [setPoint] of
    [{5, NaN, +infinity; dur 7; ttt 3000}] make of the empty example. *)
Lemma example_one_reachable : @reachable impl0 example_one.
Proof.
  apply (@reach_call impl0
           (mkSequence 3 example_min example_max
              [mkPoint [Double.of_int 5; Double.of_int 5; Double.of_int 5]
                       50 0] 0 true)
           (SetPoint (mkPoint [Double.of_int 5; S754_nan; S754_infinity false]
                              7 3000))
           example_one
           [pointValuesChanged 0; curPointValuesChanged]).
  - apply (@reach_call impl0 example_empty InsertAfterCurrent _
             [numPointsChanged; curPointChanged; isModifiedChanged]).
    + apply reach_new.
    + holds.
  - holds.
Qed.

Lemma reachable_cursor_witness :
  @reachable impl0 example_one
  /\ (m_sequence example_one = [] -> m_curPoint example_one = -1)
  /\ (m_sequence example_one <> [] ->
      0 <= m_curPoint example_one <= length_ (m_sequence example_one) - 1).
Proof.
  split; [exact example_one_reachable |].
  exact (@reachable_cursor impl0 example_one example_one_reachable).
Defined.

Lemma default_point_inserted_witness :
  isValid example_empty = true /\ m_curPoint example_empty = -1
  /\ bounds_formed example_empty = true
  /\ bounds_ordered example_empty = true
  /\ Int.in_range (duration (m_max example_empty)
                   + duration (m_min example_empty)) = true
  /\ exists s' e p,
       @run unit (@insertAfterCurrent impl0) example_empty = Some (s', e)
       /\ m_sequence s' = m_sequence example_empty ++ [p]
       /\ m_curPoint s' = 0
       /\ List.length (point p) = m_pointDim example_empty
       /\ (forall i lo hi,
             nth_error (point (m_min example_empty)) i = Some lo ->
             nth_error (point (m_max example_empty)) i = Some hi ->
             nth_error (point p) i
             = Some (Double.std_min hi
                       (Double.std_max lo
                          (Double.div (Double.add hi lo) Double.two))))
       /\ duration p
          = Z.quot (duration (m_max example_empty)
                    + duration (m_min example_empty)) 2
       /\ timeToTarget (m_min example_empty) <= timeToTarget p
          <= timeToTarget (m_max example_empty).
Proof.
  assert (Hv : isValid example_empty = true) by holds.
  assert (Hc : m_curPoint example_empty = -1) by holds.
  assert (Hf : bounds_formed example_empty = true) by holds.
  assert (Ho : bounds_ordered example_empty = true) by holds.
  assert (Hr : Int.in_range (duration (m_max example_empty)
                             + duration (m_min example_empty)) = true)
    by holds.
  repeat (split; [assumption |]).
  exact (proj2 (@default_point_inserted impl0) example_empty Hv Hc Hf Ho Hr).
Defined.

Lemma clear_empties_and_marks_witness :
  isValid example_one = true /\ cursor_ok example_one = true
  /\ exists s',
       run clear example_one
       = Some (s', (if isEmpty (m_sequence example_one) then []
                    else [numPointsChanged; curPointChanged])
                   ++ (if m_isModified example_one then []
                       else [isModifiedChanged]))
       /\ m_sequence s' = [] /\ m_curPoint s' = -1 /\ m_isModified s' = true
       /\ (m_sequence example_one = [] ->
           s' = with_isModified true example_one).
Proof.
  assert (Hv : isValid example_one = true) by holds.
  assert (Hc : cursor_ok example_one = true) by holds.
  repeat (split; [assumption |]).
  exact (clear_empties_and_marks example_one Hv Hc).
Defined.

Lemma load_single_element_witness :
  @fromJson impl0 (SequencePoint_toJson example_min) = Some example_min
  /\ (0 < List.length (point example_min))%nat
  /\ exists s,
       @load impl0 doc_single = Some s
       /\ isValid s = true
       /\ m_pointDim s = List.length (point example_min)
       /\ m_min s = example_min
       /\ m_max s = mkPoint (repeat Double.zero
                               (List.length (point example_min)))
                            (@default_duration impl0)
                            (@default_timeToTarget impl0)
       /\ m_sequence s = [] /\ m_curPoint s = -1 /\ m_isModified s = false.
Proof.
  assert (Hp : @fromJson impl0 (SequencePoint_toJson example_min)
               = Some example_min) by holds.
  assert (Hd : (0 < List.length (point example_min))%nat)
    by (cbn [example_min point List.length]; lia).
  repeat (split; [assumption |]).
  exact (@load_single_element impl0 _ example_min Hp Hd).
Defined.

Lemma insertBeforeCurrent_signals_witness :
  isValid example_empty = true /\ bounds_formed example_empty = true
  /\ cursor_ok example_empty = true
  /\ exists s' e,
       @run unit (@insertBeforeCurrent impl0) example_empty = Some (s', e)
       /\ e = [curPointChanged; numPointsChanged; curPointValuesChanged;
               isModifiedChanged]
       /\ m_curPoint s' = 0.
Proof.
  assert (Hv : isValid example_empty = true) by holds.
  assert (Hf : bounds_formed example_empty = true) by holds.
  assert (Hc : cursor_ok example_empty = true) by holds.
  repeat (split; [assumption |]).
  exact (@insertBeforeCurrent_signals impl0 example_empty Hv Hf Hc).
Defined.

Lemma accessors_after_last_removed_witness :
  isValid example_one = true
  /\ m_sequence example_one
     = [mkPoint [Double.of_int 5; Double.zero; Double.of_int 10] 7 100]
  /\ m_curPoint example_one = 0
  /\ exists s' e,
       run removeCurrent example_one = Some (s', e)
       /\ m_sequence s' = [] /\ m_curPoint s' = -1
       /\ (forall c, pointCoordinate s' c = Some Double.zero)
       /\ pointDuration s' = Some 0
       /\ pointTimeToTarget s' = Some 0
       /\ point_cur s' = None.
Proof.
  assert (Hv : isValid example_one = true) by holds.
  assert (Hl : m_sequence example_one
               = [mkPoint [Double.of_int 5; Double.zero; Double.of_int 10]
                          7 100]) by holds.
  assert (Hc : m_curPoint example_one = 0) by holds.
  repeat (split; [assumption |]).
  exact (accessors_after_last_removed example_one _ Hv Hl Hc).
Defined.

(** * Further properties of the code *)

(** ** Clamping twice *)

Lemma ltb_irrefl (a : double) : Double.ltb a a = false.
Proof.
  unfold Double.ltb, SFltb. fold (Double.compare a a).
  destruct a as [s | s | | s m e]; try reflexivity;
    rewrite DoubleFacts.compare_refl by discriminate; reflexivity.
Qed.

Ltac by_cases_dltb :=
  repeat match goal with
         | |- context [Double.ltb ?a ?b] =>
             lazymatch a with
             | context [if _ then _ else _] => fail
             | _ => lazymatch b with
                    | context [if _ then _ else _] => fail
                    | _ => destruct (Double.ltb a b) eqn:?
                    end
             end
         end.

Lemma double_clamp_idempotent (lo hi x : double) :
  Double.std_min hi (Double.std_max lo (Double.std_min hi (Double.std_max lo x)))
  = Double.std_min hi (Double.std_max lo x).
Proof.
  unfold Double.std_min, Double.std_max.
  by_cases_dltb; try reflexivity;
    rewrite ?ltb_irrefl in *; congruence.
Qed.

Ltac by_cases_zltb :=
  repeat match goal with
         | |- context [Z.ltb ?a ?b] =>
             lazymatch a with
             | context [if _ then _ else _] => fail
             | _ => lazymatch b with
                    | context [if _ then _ else _] => fail
                    | _ => destruct (Z.ltb_spec a b)
                    end
             end
         end.

Lemma int_clamp_idempotent (lo hi x : Z) :
  Int.std_min hi (Int.std_max lo (Int.std_min hi (Int.std_max lo x)))
  = Int.std_min hi (Int.std_max lo x).
Proof. unfold Int.std_min, Int.std_max. by_cases_zltb; lia. Qed.

Lemma limited_length lo hi pt pt' :
  limited lo hi pt = Some pt' -> List.length pt' = List.length pt.
Proof.
  revert lo hi pt'. induction pt as [| x pt IH]; intros lo hi pt' H.
  - injection H as <-. reflexivity.
  - destruct lo as [| l lo]; [discriminate |].
    destruct hi as [| h hi]; [discriminate |].
    cbn [limited] in H. destruct (limited lo hi pt) eqn:E; [| discriminate].
    injection H as <-. cbn [List.length]. f_equal. eauto.
Qed.

Lemma limited_idempotent lo hi pt pt' :
  limited lo hi pt = Some pt' -> limited lo hi pt' = Some pt'.
Proof.
  revert lo hi pt'. induction pt as [| x pt IH]; intros lo hi pt' H.
  - injection H as <-. reflexivity.
  - destruct lo as [| l lo]; [discriminate |].
    destruct hi as [| h hi]; [discriminate |].
    cbn [limited] in H. destruct (limited lo hi pt) eqn:E; [| discriminate].
    injection H as <-. cbn [limited].
    rewrite (IH _ _ _ E), double_clamp_idempotent. reflexivity.
Qed.

Lemma limited_update lo hi pt n l h v :
  limited lo hi pt = Some pt ->
  nth_error lo n = Some l -> nth_error hi n = Some h ->
  limited lo hi (update n (Double.std_min h (Double.std_max l v)) pt)
  = Some (update n (Double.std_min h (Double.std_max l v)) pt).
Proof.
  revert lo hi n. induction pt as [| x pt IH]; intros lo hi n H Hl Hh;
    [reflexivity |].
  destruct lo as [| l0 lo]; [discriminate |].
  destruct hi as [| h0 hi]; [discriminate |].
  cbn [limited] in H. destruct (limited lo hi pt) as [pt' |] eqn:E;
    [| discriminate].
  injection H as Hx Hpt. subst pt'.
  destruct n as [| n]; cbn [nth_error] in Hl, Hh; cbn [update limited].
  - injection Hl as ->. injection Hh as ->.
    rewrite E, double_clamp_idempotent. reflexivity.
  - rewrite (IH _ _ _ E Hl Hh), Hx. reflexivity.
Qed.

(** ** Points [validatePoint] leaves alone *)

Section CanonicalFacts.
Context {impl : SequencePointImpl}.

Lemma validatePoint_canonical s p q :
  validatePoint s p false = Some q -> canonical s q.
Proof.
  unfold canonical, validatePoint. intros H.
  destruct (limited _ _ (resized _ (point p))) as [pt |] eqn:E;
    [| discriminate].
  injection H as <-. cbn [point duration timeToTarget].
  pose proof (limited_length _ _ _ _ E) as Hlen.
  rewrite length_resized in Hlen.
  rewrite (resized_id _ _ Hlen), (limited_idempotent _ _ _ _ E).
  rewrite !int_clamp_idempotent. reflexivity.
Qed.

Lemma canonical_copy s p q :
  canonical s p -> validatePoint s p false = Some q -> canonical s q.
Proof. intros _. apply validatePoint_canonical. Qed.

Lemma canonical_length s p :
  canonical s p -> List.length (point p) = m_pointDim s.
Proof.
  unfold canonical, validatePoint. intros H.
  destruct (limited _ _ _) as [pt |] eqn:E; [| discriminate].
  apply limited_length in E. rewrite length_resized in E.
  injection H as H. rewrite <- H. cbn [point]. exact E.
Qed.

Lemma canonical_limited s p :
  canonical s p ->
  limited (point (m_min s)) (point (m_max s)) (point p) = Some (point p).
Proof.
  intros H. pose proof (canonical_length s p H) as Hlen.
  unfold canonical, validatePoint in H. rewrite (resized_id _ _ Hlen) in H.
  destruct (limited _ _ _) as [pt |]; [| discriminate].
  injection H as <-. destruct p. reflexivity.
Qed.

Lemma canonical_same_bounds s s' p :
  same_bounds s s' -> canonical s p -> canonical s' p.
Proof.
  unfold same_bounds, canonical, validatePoint.
  intros (-> & -> & ->). auto.
Qed.

Lemma canonical_within s p :
  bounds_formed s = true -> bounds_ordered s = true ->
  canonical s p -> within s p = true.
Proof. intros Hf Ho H. eapply validatePoint_Some_within; eassumption. Qed.

Lemma canonical_ints s p :
  canonical s p ->
  Int.std_min (duration (m_max s)) (Int.std_max (duration (m_min s)) (duration p))
  = duration p
  /\ Int.std_min (timeToTarget (m_max s))
       (Int.std_max (timeToTarget (m_min s)) (timeToTarget p))
     = timeToTarget p.
Proof.
  unfold canonical, validatePoint. destruct p as [pt0 d0 t0].
  cbn [point duration timeToTarget]. intros H.
  destruct (limited _ _ _) as [pt |]; [| discriminate].
  injection H as _ Hd Ht. auto.
Qed.

Lemma canonical_intro s p :
  List.length (point p) = m_pointDim s ->
  limited (point (m_min s)) (point (m_max s)) (point p) = Some (point p) ->
  Int.std_min (duration (m_max s)) (Int.std_max (duration (m_min s)) (duration p))
  = duration p ->
  Int.std_min (timeToTarget (m_max s))
    (Int.std_max (timeToTarget (m_min s)) (timeToTarget p))
  = timeToTarget p ->
  canonical s p.
Proof.
  intros Hlen Hl Hd Ht. unfold canonical, validatePoint.
  rewrite (resized_id _ _ Hlen), Hl, Hd, Ht. destruct p. reflexivity.
Qed.

Lemma canonical_with_duration s p d :
  canonical s p ->
  canonical s (with_duration p
                 (Int.std_min (duration (m_max s))
                    (Int.std_max (duration (m_min s)) d))).
Proof.
  intros H. destruct (canonical_ints s p H) as [_ Ht].
  apply canonical_intro; cbn [with_duration point duration timeToTarget].
  - apply canonical_length, H.
  - apply canonical_limited, H.
  - apply int_clamp_idempotent.
  - exact Ht.
Qed.

Lemma canonical_with_timeToTarget s p t :
  canonical s p ->
  canonical s (with_timeToTarget p
                 (Int.std_min (timeToTarget (m_max s))
                    (Int.std_max (timeToTarget (m_min s)) t))).
Proof.
  intros H. destruct (canonical_ints s p H) as [Hd _].
  apply canonical_intro; cbn [with_timeToTarget point duration timeToTarget].
  - apply canonical_length, H.
  - apply canonical_limited, H.
  - exact Hd.
  - apply int_clamp_idempotent.
Qed.

Lemma canonical_with_coordinate s p c lo hi v pt :
  canonical s p ->
  index (point (m_min s)) c = Some lo -> index (point (m_max s)) c = Some hi ->
  assign (point p) c (Double.std_min hi (Double.std_max lo v)) = Some pt ->
  canonical s (with_point p pt).
Proof.
  intros H Hlo Hhi Hpt. destruct (canonical_ints s p H) as [Hd Ht].
  pose proof (canonical_length s p H) as Hlen.
  pose proof (canonical_limited s p H) as Hl.
  apply index_Some in Hlo as [_ Hlo]. apply index_Some in Hhi as [_ Hhi].
  unfold assign in Hpt. destruct (_ && _); [| discriminate Hpt].
  injection Hpt as <-.
  apply canonical_intro; cbn [with_point point duration timeToTarget];
    try assumption.
  - rewrite length_update. exact Hlen.
  - apply limited_update; assumption.
Qed.

End CanonicalFacts.

(** ** Containers, once more *)

Section ContainerForall.
Context {A : Type}.
Implicit Types (l : list A) (P : A -> Prop).

Lemma index_Forall l i x P : index l i = Some x -> Forall P l -> P x.
Proof.
  intros H Hall. apply index_Some in H as [_ H].
  apply nth_error_In in H. rewrite Forall_forall in Hall. auto.
Qed.

Lemma Forall_firstn_skipn l n P :
  Forall P l -> Forall P (firstn n l) /\ Forall P (skipn n l).
Proof.
  intros H. rewrite <- (firstn_skipn n l) in H.
  apply Forall_app in H. exact H.
Qed.

Lemma Forall_snoc l x P : Forall P l -> P x -> Forall P (l ++ [x]).
Proof. intros H Hx. apply Forall_app. split; [assumption | auto]. Qed.

Lemma Forall_insert l i x P : Forall P l -> P x -> Forall P (insert l i x).
Proof.
  intros H Hx. unfold insert.
  destruct (Forall_firstn_skipn l (Z.to_nat i) P H) as [H1 H2].
  apply Forall_app. split; [assumption | constructor; assumption].
Qed.

Lemma Forall_update l n x P : Forall P l -> P x -> Forall P (update n x l).
Proof.
  revert n. induction l as [| y l IH]; intros n H Hx; [constructor |].
  inversion H; subst. destruct n; cbn [update]; constructor; auto.
Qed.

Lemma Forall_assign l i x l' P :
  assign l i x = Some l' -> Forall P l -> P x -> Forall P l'.
Proof.
  unfold assign. destruct (_ && _); intros H; [| discriminate H].
  injection H as <-. apply Forall_update.
Qed.

Lemma Forall_removeAt l i l' P :
  removeAt l i = Some l' -> Forall P l -> Forall P l'.
Proof.
  unfold removeAt. destruct (_ && _); intros H Hall; [| discriminate H].
  injection H as <-.
  destruct (Forall_firstn_skipn l (Z.to_nat i) P Hall) as [Hfst _].
  destruct (Forall_firstn_skipn l (Z.to_nat (i + 1)) P Hall) as [_ Hsnd].
  apply Forall_app. split; assumption.
Qed.

End ContainerForall.

Section CanonicalInvariant.
Context {impl : SequencePointImpl}.

Lemma index_canonical s l i x :
  index l i = Some x -> Forall (canonical s) l -> canonical s x.
Proof. apply index_Forall. Qed.

(** Every call stores only points that [validatePoint] leaves alone. *)
Lemma call_canonical m s s' e :
  run (call m) s = Some (s', e) ->
  Forall (canonical s) (m_sequence s) -> Forall (canonical s') (m_sequence s').
Proof.
  intros H Hs.
  assert (Hgoal : Forall (canonical s) (m_sequence s')).
  { destruct m; open_call H; fields;
      eauto 6 using Forall_snoc, Forall_insert, Forall_assign,
        Forall_removeAt, validatePoint_canonical, canonical_with_duration,
        canonical_with_timeToTarget, canonical_with_coordinate,
        index_canonical, Forall_nil. }
  eapply Forall_impl; [| exact Hgoal].
  intros p. apply canonical_same_bounds. eapply call_same_bounds, H.
Qed.

Lemma load_canonical json s :
  load json = Some s -> Forall (canonical s) (m_sequence s).
Proof.
  destruct json as [| a | o]; try (intros H; injection H as <-; constructor).
  destruct (parsed a) as [[| p0 ps] |] eqn:Hp.
  - apply parsed_nil in Hp as ->. intros H. injection H as <-. constructor.
  - destruct (uniform (-1) (p0 :: ps)) eqn:Hu.
    + destruct (load_points a p0 ps Hp Hu) as (l' & -> & Hall).
      intros H. injection H as <-. fields.
      induction Hall as [| p q l l' Hq _ IH]; constructor; [| exact IH].
      apply validatePoint_canonical in Hq. exact Hq.
    + unfold load. rewrite load_loop_spec, Hp. cbn [l_dim]. rewrite Hu.
      intros H. injection H as <-. constructor.
  - unfold load. rewrite load_loop_spec, Hp.
    intros H. injection H as <-. constructor.
Qed.

Lemma reachable_canonical s :
  reachable s -> Forall (canonical s) (m_sequence s).
Proof.
  induction 1 as [dim lo hi | json s H | s m s' e _ IH H].
  - constructor.
  - eapply load_canonical, H.
  - eapply call_canonical; eassumption.
Qed.

End CanonicalInvariant.

(** ** The class invariant and what follows from it *)

Section ClassInvariant.
Context {impl : SequencePointImpl}.

(** X1.  When the bounds have [pointDim] coordinates, [validatePoint(p)] is
    defined for every [p], its result has exactly [pointDim] coordinates,
    and [validatePoint] returns that result unchanged, bit for bit: the
    function is idempotent, whatever the bounds are (ordered or not, NaN
    included). *)
Theorem validatePoint_idempotent (s : Sequence) (p : SequencePoint) :
  bounds_formed s = true ->
  exists q,
    validatePoint s p false = Some q
    /\ List.length (point q) = m_pointDim s
    /\ validatePoint s q false = Some q.
Proof.
  intros Hf. destruct (validatePoint_within s p Hf) as (q & E & Hlen & _).
  exists q. repeat split; try assumption.
  eapply validatePoint_canonical, E.
Qed.

(** X2.  In every state reached from a constructed or a loaded Sequence by
    calls of mutators, every stored point has exactly [pointDim] coordinates
    and is a point [validatePoint] returns unchanged; if the bounds are
    ordered, every stored point lies within [[min, max]]. *)
Theorem reachable_points_validated (s : Sequence) :
  reachable s ->
  Forall (fun p => List.length (point p) = m_pointDim s
                   /\ validatePoint s p false = Some p) (m_sequence s)
  /\ (bounds_ordered s = true -> stored_within s = true).
Proof.
  intros Hr. pose proof (reachable_canonical s Hr) as Hc.
  pose proof (reachable_bounds_formed s Hr) as Hf. split.
  - eapply Forall_impl; [| exact Hc]. intros p Hp.
    split; [apply canonical_length |]; exact Hp.
  - intros Ho. unfold stored_within. apply forallb_forall. intros p Hin.
    rewrite Forall_forall in Hc. apply canonical_within; auto.
Qed.




End ClassInvariant.

Section ExactRoundTrip.
Context {impl : SequencePointImpl}.
Hypothesis fromJson_toJson :
  forall p, ints_of_point p = true -> fromJson (toJson p) = Some p.

Lemma uniform_canonical (s : Sequence) (l : list SequencePoint) :
  Forall (canonical s) l -> uniform (Z.of_nat (m_pointDim s)) l = true.
Proof.
  induction 1 as [| p l Hp _ IH]; [reflexivity |].
  cbn [uniform]. apply canonical_length in Hp.
  unfold length_. rewrite Hp, Z.eqb_refl, orb_true_r. cbn [andb]. exact IH.
Qed.

(** X4.  For every valid reachable Sequence [s], [load(s.save())] has the
    [pointDim], the min, the max and, bit for bit, the point list of [s];
    its [curPoint] is 0 if the list is not empty and -1 if it is (the
    cursor of [s] is not saved), and its modified flag is false.  The
    bounds need not be ordered.  [fromJson] is taken to read back what
    [toJson] writes. *)
Theorem reachable_round_trip (s : Sequence) :
  reachable s -> isValid s = true -> ints_of_sequence s = true ->
  exists doc,
    save s = Some (doc, with_isModified false s, [])
    /\ load doc
       = Some (with_isModified false
                 (with_curPoint (if isEmpty (m_sequence s) then -1 else 0) s)).
Proof.
  intros Hr Hv Hi.
  pose proof (reachable_bounds_formed s Hr) as Hf.
  pose proof (reachable_canonical s Hr) as Hc.
  unfold ints_of_sequence in Hi. apply andb_prop in Hi as [Hi Hil].
  apply andb_prop in Hi as [Himin Himax].
  pose proof Hf as Hf'. unfold bounds_formed in Hf'.
  apply andb_prop in Hf' as [Hmin Hmax].
  apply Nat.eqb_eq in Hmin. apply Nat.eqb_eq in Hmax.
  unfold save, bind, this, store, ret. rewrite Hv. cbn [negb].
  set (a := JObject (toJson (m_min s)) :: JObject (toJson (m_max s))
            :: map (fun sp => JObject (toJson sp)) (m_sequence s)).
  assert (Hp : parsed a = Some (m_min s :: m_max s :: m_sequence s)).
  { unfold a. cbn [parsed element_point].
    rewrite !fromJson_toJson, (parsed_toJson fromJson_toJson) by assumption.
    reflexivity. }
  assert (Hu : uniform (-1) (m_min s :: m_max s :: m_sequence s) = true).
  { assert (Emin : length_ (point (m_min s)) = Z.of_nat (m_pointDim s))
      by (unfold length_; congruence).
    assert (Emax : length_ (point (m_max s)) = Z.of_nat (m_pointDim s))
      by (unfold length_; congruence).
    cbn [uniform]. rewrite Emin, Emax, !Z.eqb_refl, orb_true_r.
    cbn [orb andb]. apply uniform_canonical. exact Hc. }
  destruct (load_points a _ _ Hp Hu) as (l' & E & Hall).
  cbn [tl hd] in E, Hall. unfold Sequence_new in E, Hall.
  rewrite Hmin, !resized_id, !with_point_id in E, Hall by assumption.
  exists (DocArray a). split; [reflexivity |]. rewrite E.
  assert (l' = m_sequence s) as ->.
  { revert Hall Hc. generalize (m_sequence s) as l. clear.
    intros l Hall. induction Hall as [| p q l l' Hq _ IH]; [reflexivity |].
    intros Hc. inversion Hc as [| ? ? Hp Hl]; subst.
    unfold canonical in Hp.
    change (validatePoint s p false = Some q) in Hq.
    rewrite Hp in Hq. injection Hq as <-. f_equal. auto. }
  destruct s. reflexivity.
Qed.

End ExactRoundTrip.

(** ** What single calls do *)

Section SingleCalls.
Context {impl : SequencePointImpl}.

Ltac fields_all :=
  cbn [m_pointDim m_min m_max m_sequence m_curPoint m_isModified
       with_sequence with_curPoint with_isModified] in *.

(** X5.  [setCurPoint(p)] does nothing on an empty list; otherwise it sets
    the cursor to [p] clamped into [[0, length - 1]] (0 for a negative [p],
    [length - 1] for a [p] past the end) and emits [curPointChanged] exactly
    when the cursor moved.  It touches nothing else, not even the modified
    flag, it does not ask whether the Sequence is valid, and a second call
    with the same [p] emits nothing. *)
Theorem setCurPoint_clamps (s : Sequence) (p : Z) :
  let c := if isEmpty (m_sequence s) then m_curPoint s
           else Z.max 0 (Z.min (length_ (m_sequence s) - 1) p) in
  run (setCurPoint p) s
  = Some (with_curPoint c s,
          if c =? m_curPoint s then [] else [curPointChanged])
  /\ run (setCurPoint p) (with_curPoint c s) = Some (with_curPoint c s, []).
Proof.
  cbv zeta. pose proof (length_nonneg (m_sequence s)) as Hlen.
  unfold run, setCurPoint, bind, this, store, emit, ret. fields.
  destruct s as [dim lo hi l c b]. fields_all.
  destruct l as [| x l]; cbn [isEmpty].
  - rewrite Z.eqb_refl. split; reflexivity.
  - set (n := length_ (x :: l)) in *.
    assert (0 < n) by (unfold n, length_; cbn [List.length]; lia).
    destruct (Z.ltb_spec p 0).
    + rewrite Z.max_l by lia.
      destruct (Z.eqb_spec 0 c); cbn [negb]; subst; split; reflexivity.
    + rewrite Z.geb_leb. destruct (Z.leb_spec n p).
      * rewrite Z.min_l, Z.max_r by lia.
        destruct (Z.eqb_spec (n - 1) c); cbn [negb];
          rewrite ?Z.eqb_refl; subst; split; reflexivity.
      * rewrite Z.min_r, Z.max_r by lia.
        destruct (Z.eqb_spec p c); cbn [negb];
          rewrite ?Z.eqb_refl; subst; split; reflexivity.
Qed.

(** X6.  On an invalid Sequence ([pointDim == 0]) every mutator other than
    [setCurPoint] returns at once: the object is unchanged and no signal is
    emitted, whatever the arguments, positions outside the list included. *)
Theorem invalid_calls_do_nothing (m : Mutator) (s : Sequence) :
  isValid s = false -> (forall p, m <> SetCurPoint p) ->
  run (call m) s = Some (s, []).
Proof.
  intros Hv Hm.
  destruct m; try (destruct (Hm p); reflexivity); cbn [call];
    unfold run, insertAfterCurrent, insertBeforeCurrent, append,
      removeCurrent, clear, setPoint, setPoint_at, setPointCoordinate,
      setPointCoordinate_at, setDuration, setDuration_at, setTimeToTarget,
      setTimeToTarget_at, bind, this, ret;
    rewrite ?Hv; cbn [negb orb];
    try destruct (m_curPoint s <? 0); rewrite ?Hv; reflexivity.
Qed.

(** X7.  No call of a mutator changes [pointDim] or the bounds: [min()],
    [max()] and the six getters of their fields return after the call what
    they returned before it. *)
Theorem calls_keep_bounds (m : Mutator) (s s' : Sequence) (e : list Signal) :
  run (call m) s = Some (s', e) ->
  m_pointDim s' = m_pointDim s /\ m_min s' = m_min s /\ m_max s' = m_max s
  /\ (forall c, minPointCoordinate s' c = minPointCoordinate s c)
  /\ (forall c, maxPointCoordinate s' c = maxPointCoordinate s c)
  /\ minPointDuration s' = minPointDuration s
  /\ maxPointDuration s' = maxPointDuration s
  /\ minPointTimeToTarget s' = minPointTimeToTarget s
  /\ maxPointTimeToTarget s' = maxPointTimeToTarget s.
Proof.
  intros H. apply call_same_bounds in H as (Hd & Hmin & Hmax).
  unfold minPointCoordinate, maxPointCoordinate, minPointDuration,
    maxPointDuration, minPointTimeToTarget, maxPointTimeToTarget.
  rewrite Hd, Hmin, Hmax. repeat split.
Qed.

(** X8.  No call of a mutator clears the modified flag.  A call emits
    [isModifiedChanged] exactly when it takes the flag from false to true,
    and a call that changes the number of points leaves the flag set. *)
Theorem calls_and_modified_flag (m : Mutator) (s s' : Sequence)
        (e : list Signal) :
  run (call m) s = Some (s', e) ->
  (m_isModified s = true -> m_isModified s' = true)
  /\ (In isModifiedChanged e <->
      m_isModified s = false /\ m_isModified s' = true)
  /\ (length_ (m_sequence s') <> length_ (m_sequence s) ->
      m_isModified s' = true).
Proof.
  intros H.
  destruct m; open_call H; fields_all; cbn [app In];
    lengths; to_prop;
    repeat match goal with
           | Hb : m_isModified s = _ |- _ => rewrite Hb in *
           end;
    (split; [| split]);
    try (intuition (congruence || lia)).
Qed.

End SingleCalls.

(** ** Insertion and removal *)

Section MoreContainerFacts.
Context {A : Type}.
Implicit Types (l : list A).

Lemma insert_at_end l x : insert l (length_ l) x = l ++ [x].
Proof.
  unfold insert, length_. rewrite Nat2Z.id, firstn_all, skipn_all.
  reflexivity.
Qed.

Lemma removeAt_insert l i x :
  0 <= i <= length_ l -> removeAt (insert l i x) i = Some l.
Proof.
  intros Hi. unfold removeAt. rewrite length_insert.
  destruct (Z.leb_spec 0 i), (Z.ltb_spec i (length_ l + 1)); try lia.
  cbn [andb]. f_equal. unfold insert.
  assert (Hn : List.length (firstn (Z.to_nat i) l) = Z.to_nat i).
  { rewrite length_firstn. unfold length_ in Hi. lia. }
  assert (E1 : firstn (Z.to_nat i) (firstn (Z.to_nat i) l)
               = firstn (Z.to_nat i) l) by (apply firstn_all2; lia).
  assert (E2 : skipn (Z.to_nat (i + 1)) (firstn (Z.to_nat i) l) = [])
    by (apply skipn_all2; lia).
  rewrite firstn_app, skipn_app, Hn, Nat.sub_diag, E1, E2.
  replace (Z.to_nat (i + 1) - Z.to_nat i)%nat with 1%nat by lia.
  cbn [firstn skipn app]. rewrite app_nil_r. apply firstn_skipn.
Qed.

Lemma removeAt_snoc l x : removeAt (l ++ [x]) (length_ l) = Some l.
Proof.
  rewrite <- insert_at_end. apply removeAt_insert.
  pose proof (length_nonneg l). lia.
Qed.

Lemma nth_error_update_same l n x :
  (n < List.length l)%nat -> nth_error (update n x l) n = Some x.
Proof.
  revert n. induction l as [| y l IH]; intros [| n] H; cbn in *;
    try lia; [reflexivity | apply IH; lia].
Qed.

Lemma nth_error_update_other l n m x :
  n <> m -> nth_error (update n x l) m = nth_error l m.
Proof.
  revert n m. induction l as [| y l IH]; intros [| n] [| m] H; cbn;
    try reflexivity; try congruence. apply IH. congruence.
Qed.

Lemma index_assign_same l i x l' :
  assign l i x = Some l' -> index l' i = Some x.
Proof.
  unfold assign, index.
  destruct (Z.leb_spec 0 i), (Z.ltb_spec i (length_ l)); cbn [andb];
    intros H'; try discriminate H'. injection H' as <-.
  unfold length_ in *. rewrite length_update.
  destruct (Z.ltb_spec i (Z.of_nat (List.length l))); [| lia].
  apply nth_error_update_same. lia.
Qed.

Lemma index_assign_other l i x l' j :
  assign l i x = Some l' -> j <> i -> index l' j = index l j.
Proof.
  unfold assign, index.
  destruct (Z.leb_spec 0 i), (Z.ltb_spec i (length_ l)); cbn [andb];
    intros H' Hj; try discriminate H'. injection H' as <-.
  unfold length_ in *. rewrite length_update.
  destruct ((0 <=? j) && (j <? Z.of_nat (List.length l))) eqn:E;
    [| reflexivity].
  apply andb_prop in E as [E1 E2]. apply Z.leb_le in E1.
  apply nth_error_update_other. lia.
Qed.

End MoreContainerFacts.

Section InsertRemove.
Context {impl : SequencePointImpl}.

Ltac unfold_ops :=
  unfold run, insertAfterCurrent, insertBeforeCurrent, append, removeCurrent,
    sequenceModified, bind, this, store, emit, ret, defined.

Lemma run_call2 m1 m2 s :
  run (call2 m1 m2) s
  = match run (call m1) s with
    | Some (s1, e1) =>
        match run (call m2) s1 with
        | Some (s2, e2) => Some (s2, e1 ++ e2)
        | None => None
        end
    | None => None
    end.
Proof.
  unfold run, call2, bind. destruct (call m1 s) as [[[[] s1] e1] |];
    [| reflexivity].
  destruct (call m2 s1) as [[[[] s2] e2] |]; reflexivity.
Qed.

Lemma cursor_ok_cases s :
  cursor_ok s = true ->
  (m_curPoint s = -1 /\ m_sequence s = [])
  \/ (0 <= m_curPoint s < length_ (m_sequence s)).
Proof.
  unfold cursor_ok. destruct (m_sequence s) as [| x l]; cbn [isEmpty].
  - intros H. apply Z.eqb_eq in H. auto.
  - intros H. apply andb_prop in H as [H1 H2].
    apply Z.leb_le in H1. apply Z.leb_le in H2. right. lia.
Qed.

(** The calls on a valid Sequence, case by case. *)
Lemma insertAfterCurrent_copy s c p :
  isValid s = true -> index (m_sequence s) (m_curPoint s) = Some c ->
  validatePoint s c false = Some p ->
  run insertAfterCurrent s
  = Some (with_isModified true
            (with_curPoint (m_curPoint s + 1)
               (with_sequence (insert (m_sequence s) (m_curPoint s + 1) p) s)),
          [numPointsChanged; curPointChanged] ++ flag_signal s).
Proof.
  intros Hv Hc Hp. unfold_ops. rewrite Hv, Hc, Hp. cbn [negb].
  apply index_Some in Hc as [Hc _].
  destruct (Z.eqb_spec (m_curPoint s) (-1)); [lia |].
  destruct s as [dim lo hi l cur [|]]; reflexivity.
Qed.

Lemma insertBeforeCurrent_default s d p :
  isValid s = true -> m_curPoint s = -1 ->
  defaultSequencePoint s = Some d -> validatePoint s d false = Some p ->
  run insertBeforeCurrent s
  = Some (with_isModified true
            (with_curPoint 0 (with_sequence (m_sequence s ++ [p]) s)),
          [curPointChanged; numPointsChanged; curPointValuesChanged]
          ++ flag_signal s).
Proof.
  intros Hv Hc Hd Hp. unfold_ops. rewrite Hv, Hc, Hd, Hp. cbn [negb Z.eqb].
  destruct s as [dim lo hi l cur [|]]; reflexivity.
Qed.

Lemma insertBeforeCurrent_copy s c p :
  isValid s = true -> index (m_sequence s) (m_curPoint s) = Some c ->
  validatePoint s c false = Some p ->
  run insertBeforeCurrent s
  = Some (with_isModified true
            (with_sequence (insert (m_sequence s) (m_curPoint s) p) s),
          [numPointsChanged; curPointValuesChanged] ++ flag_signal s).
Proof.
  intros Hv Hc Hp. unfold_ops. rewrite Hv, Hc, Hp. cbn [negb].
  apply index_Some in Hc as [Hc _].
  destruct (Z.eqb_spec (m_curPoint s) (-1)); [lia |].
  destruct s as [dim lo hi l cur [|]]; reflexivity.
Qed.

Lemma append_copy s c p :
  isValid s = true -> index (m_sequence s) (m_curPoint s) = Some c ->
  validatePoint s c false = Some p ->
  run append s
  = Some (with_isModified true
            (with_curPoint (length_ (m_sequence s))
               (with_sequence (m_sequence s ++ [p]) s)),
          [numPointsChanged; curPointChanged] ++ flag_signal s).
Proof.
  intros Hv Hc Hp. unfold_ops. rewrite Hv. cbn [negb].
  pose proof Hc as Hc'. apply index_Some in Hc' as [Hc' _].
  destruct (Z.eqb_spec (m_curPoint s) (-1)); [lia |].
  rewrite Hc, Hp.
  destruct s as [dim lo hi l cur [|]];
    cbn [m_sequence m_curPoint m_isModified with_sequence with_curPoint
         with_isModified negb app flag_signal];
    rewrite length_snoc, Z.add_simpl_r; reflexivity.
Qed.

Lemma removeCurrent_at s l :
  isValid s = true -> removeAt (m_sequence s) (m_curPoint s) = Some l ->
  let last := m_curPoint s >=? length_ l in
  run removeCurrent s
  = Some (with_isModified true
            (with_curPoint (if last then length_ l - 1 else m_curPoint s)
               (with_sequence l s)),
          [numPointsChanged;
           if last then curPointChanged else curPointValuesChanged]
          ++ flag_signal s).
Proof.
  intros Hv Hl. cbv zeta. unfold_ops. rewrite Hv, Hl. cbn [negb orb].
  apply length_removeAt in Hl as [Hc _].
  destruct (Z.eqb_spec (m_curPoint s) (-1)); [lia |].
  destruct s as [dim lo hi seq cur [|]];
    cbn [m_sequence m_curPoint m_isModified with_sequence with_curPoint
         with_isModified negb app flag_signal];
    destruct (cur >=? length_ l); reflexivity.
Qed.

(** X9.  [insertAfterCurrent()] followed by [removeCurrent()] gives back
    the point list as it was and leaves the modified flag set.  The cursor
    returns to where it was only if it was on the last point (or there was
    none); otherwise it ends one position further, on the point that
    followed the current one. *)
Theorem insertAfterCurrent_removeCurrent (s : Sequence) :
  isValid s = true -> bounds_formed s = true -> cursor_ok s = true ->
  let last := m_curPoint s =? length_ (m_sequence s) - 1 in
  run (call2 InsertAfterCurrent RemoveCurrent) s
  = Some (with_isModified true
            (with_curPoint (if last then m_curPoint s else m_curPoint s + 1)
                           s),
          [numPointsChanged; curPointChanged] ++ flag_signal s
          ++ [numPointsChanged;
              if last then curPointChanged else curPointValuesChanged]).
Proof.
  intros Hv Hf Hc. cbv zeta. rewrite run_call2. cbn [call].
  pose proof (length_nonneg (m_sequence s)) as Hlen.
  destruct (cursor_ok_cases s Hc) as [[Hcur Hnil] | Hcur].
  - destruct (defaultSequencePoint_defined s Hf) as (d & Hd).
    destruct (validatePoint_within s d Hf) as (p & Hp & _).
    rewrite (insertAfterCurrent_default s d p Hv Hcur Hd Hp).
    erewrite removeCurrent_at; fields;
      [| exact Hv | rewrite Hnil; reflexivity].
    clear Hlen. revert Hcur Hnil.
    destruct s as [dim lo hi l c [|]]; cbn; intros -> ->; reflexivity.
  - destruct (index_defined _ _ Hcur) as (c & Hi).
    destruct (validatePoint_within s c Hf) as (p & Hp & _).
    rewrite (insertAfterCurrent_copy s c p Hv Hi Hp).
    erewrite removeCurrent_at; fields;
      [| exact Hv | apply removeAt_insert; lia].
    rewrite Z.geb_leb.
    destruct (Z.leb_spec (length_ (m_sequence s)) (m_curPoint s + 1));
      destruct (Z.eqb_spec (m_curPoint s) (length_ (m_sequence s) - 1))
        as [E | E];
      try lia; try rewrite <- E;
      destruct s as [dim lo hi l cur [|]]; reflexivity.
Qed.

(** X10.  [insertBeforeCurrent()] followed by [removeCurrent()] gives back
    the point list and the cursor as they were: of the object only the
    modified flag, now set, may differ. *)
Theorem insertBeforeCurrent_removeCurrent (s : Sequence) :
  isValid s = true -> bounds_formed s = true -> cursor_ok s = true ->
  exists e,
    run (call2 InsertBeforeCurrent RemoveCurrent) s
    = Some (with_isModified true s, e).
Proof.
  intros Hv Hf Hc. rewrite run_call2. cbn [call].
  pose proof (length_nonneg (m_sequence s)) as Hlen.
  destruct (cursor_ok_cases s Hc) as [[Hcur Hnil] | Hcur].
  - destruct (defaultSequencePoint_defined s Hf) as (d & Hd).
    destruct (validatePoint_within s d Hf) as (p & Hp & _).
    rewrite (insertBeforeCurrent_default s d p Hv Hcur Hd Hp).
    erewrite removeCurrent_at; fields;
      [| exact Hv | rewrite Hnil; reflexivity].
    clear Hlen. revert Hcur Hnil.
    destruct s as [dim lo hi l c [|]]; cbn; intros -> ->;
      eexists; reflexivity.
  - destruct (index_defined _ _ Hcur) as (c & Hi).
    destruct (validatePoint_within s c Hf) as (p & Hp & _).
    rewrite (insertBeforeCurrent_copy s c p Hv Hi Hp).
    erewrite removeCurrent_at; fields;
      [| exact Hv | apply removeAt_insert; lia].
    rewrite Z.geb_leb.
    destruct (Z.leb_spec (length_ (m_sequence s)) (m_curPoint s)); [lia |].
    destruct s as [dim lo hi l cur [|]]; eexists; reflexivity.
Qed.

End InsertRemove.

Section RemovalFacts.
Context {A : Type}.
Implicit Types (l : list A).

Lemma index_removeAt l i l' j :
  removeAt l i = Some l' -> 0 <= j ->
  index l' j = if j <? i then index l j else index l (j + 1).
Proof.
  intros H Hj. pose proof (length_removeAt _ _ _ H) as [Hi Hlen].
  unfold removeAt in H.
  destruct ((0 <=? i) && (i <? length_ l)); [| discriminate H].
  injection H as <-. unfold index. rewrite Hlen.
  assert (Hn : List.length (firstn (Z.to_nat i) l) = Z.to_nat i).
  { rewrite length_firstn. unfold length_ in Hi. lia. }
  destruct (Z.ltb_spec j i).
  - destruct (Z.leb_spec 0 j); [| lia].
    destruct (Z.ltb_spec j (length_ l - 1)), (Z.ltb_spec j (length_ l));
      try lia; cbn [andb].
    rewrite nth_error_app1 by lia. rewrite nth_error_firstn.
    destruct (Nat.ltb_spec (Z.to_nat j) (Z.to_nat i)); [reflexivity | lia].
  - destruct (Z.leb_spec 0 j), (Z.leb_spec 0 (j + 1)); try lia.
    destruct (Z.ltb_spec j (length_ l - 1)), (Z.ltb_spec (j + 1) (length_ l));
      try lia; cbn [andb]; [| reflexivity].
    rewrite nth_error_app2 by lia. rewrite nth_error_skipn, Hn.
    f_equal. lia.
Qed.

Lemma length_firstn_to_nat l i :
  0 <= i <= length_ l -> List.length (firstn (Z.to_nat i) l) = Z.to_nat i.
Proof. intros H. rewrite length_firstn. unfold length_ in H. lia. Qed.

Lemma index_in_range l i :
  0 <= i < length_ l -> index l i = nth_error l (Z.to_nat i).
Proof.
  intros H. unfold index.
  destruct (Z.leb_spec 0 i), (Z.ltb_spec i (length_ l)); try lia.
  reflexivity.
Qed.

Lemma index_insert_same l i x :
  0 <= i <= length_ l -> index (insert l i x) i = Some x.
Proof.
  intros H. rewrite index_in_range by (rewrite length_insert; lia).
  unfold insert. pose proof (length_firstn_to_nat l i H) as Hl.
  rewrite nth_error_app2 by lia. rewrite Hl, Nat.sub_diag. reflexivity.
Qed.

Lemma index_insert_before l i x j :
  0 <= j < i -> i <= length_ l -> index (insert l i x) j = index l j.
Proof.
  intros Hj Hi. rewrite !index_in_range by (rewrite ?length_insert; lia).
  unfold insert. pose proof (length_firstn_to_nat l i) as Hl.
  rewrite nth_error_app1 by lia. rewrite nth_error_firstn.
  destruct (Nat.ltb_spec (Z.to_nat j) (Z.to_nat i)); [reflexivity | lia].
Qed.

Lemma index_insert_after l i x j :
  0 <= i <= j -> j < length_ l -> index (insert l i x) (j + 1) = index l j.
Proof.
  intros Hi Hj. rewrite !index_in_range by (rewrite ?length_insert; lia).
  unfold insert. pose proof (length_firstn_to_nat l i) as Hl.
  rewrite nth_error_app2 by lia. rewrite Hl by lia.
  replace (Z.to_nat (j + 1) - Z.to_nat i)%nat
    with (S (Z.to_nat j - Z.to_nat i)) by lia.
  cbn [nth_error]. rewrite nth_error_skipn. f_equal. lia.
Qed.

End RemovalFacts.

Section Copies.
Context {impl : SequencePointImpl}.

Lemma reachable_current_canonical s c :
  reachable s -> point_cur s = Some c -> validatePoint s c false = Some c.
Proof.
  intros Hr Hc. apply reachable_canonical in Hr.
  exact (index_Forall _ _ _ _ Hc Hr).
Qed.

(** X11.  In a valid reachable state with a current point, [append()] adds
    an exact copy of the current point at the end of the list and moves the
    cursor onto it; it emits [numPointsChanged], then [curPointChanged],
    then [isModifiedChanged] if the flag was not set, and sets the flag. *)
Theorem append_copies_current (s : Sequence) (c : SequencePoint) :
  reachable s -> isValid s = true -> point_cur s = Some c ->
  run append s
  = Some (with_isModified true
            (with_curPoint (length_ (m_sequence s))
               (with_sequence (m_sequence s ++ [c]) s)),
          [numPointsChanged; curPointChanged] ++ flag_signal s).
Proof.
  intros Hr Hv Hc. apply (append_copy s c c); try assumption.
  apply reachable_current_canonical; assumption.
Qed.

(** X12.  In a valid reachable state with a current point,
    [insertAfterCurrent()] inserts an exact copy of the current point right
    after it and moves the cursor onto the copy; it emits
    [numPointsChanged], then [curPointChanged], then [isModifiedChanged] if
    the flag was not set, and sets the flag. *)
Theorem insertAfterCurrent_copies_current (s : Sequence) (c : SequencePoint) :
  reachable s -> isValid s = true -> point_cur s = Some c ->
  exists s',
    run insertAfterCurrent s
    = Some (s', [numPointsChanged; curPointChanged] ++ flag_signal s)
    /\ m_sequence s' = insert (m_sequence s) (m_curPoint s + 1) c
    /\ m_curPoint s' = m_curPoint s + 1
    /\ point_cur s' = Some c
    /\ point_at s' (m_curPoint s) = Some c
    /\ length_ (m_sequence s') = length_ (m_sequence s) + 1
    /\ m_isModified s' = true.
Proof.
  intros Hr Hv Hc.
  rewrite (insertAfterCurrent_copy s c c Hv Hc
             (reachable_current_canonical s c Hr Hc)).
  eexists. split; [reflexivity |]. fields. unfold point_cur, point_at. fields.
  pose proof Hc as Hi. apply index_Some in Hi as [Hi _].
  repeat split.
  - apply index_insert_same. lia.
  - rewrite index_insert_before by lia. exact Hc.
  - apply length_insert.
Qed.

(** X13.  In a valid reachable state with a current point,
    [insertBeforeCurrent()] inserts an exact copy of the current point at
    the position of the cursor, which stays where it is: the current point
    is now the copy, and the original follows it. *)
Theorem insertBeforeCurrent_copies_current (s : Sequence) (c : SequencePoint) :
  reachable s -> isValid s = true -> point_cur s = Some c ->
  exists s',
    run insertBeforeCurrent s
    = Some (s', [numPointsChanged; curPointValuesChanged] ++ flag_signal s)
    /\ m_sequence s' = insert (m_sequence s) (m_curPoint s) c
    /\ m_curPoint s' = m_curPoint s
    /\ point_cur s' = Some c
    /\ point_at s' (m_curPoint s + 1) = Some c
    /\ length_ (m_sequence s') = length_ (m_sequence s) + 1
    /\ m_isModified s' = true.
Proof.
  intros Hr Hv Hc.
  rewrite (insertBeforeCurrent_copy s c c Hv Hc
             (reachable_current_canonical s c Hr Hc)).
  eexists. split; [reflexivity |]. fields. unfold point_cur, point_at. fields.
  pose proof Hc as Hi. apply index_Some in Hi as [Hi _].
  repeat split.
  - apply index_insert_same. lia.
  - rewrite index_insert_after by lia. exact Hc.
  - apply length_insert.
Qed.

(** X14.  On a valid Sequence with a current point, [removeCurrent()]
    removes exactly that point: the points before it keep their positions,
    the points after it move down by one.  The cursor stays on its index,
    now the point that followed, unless the removed point was the last one:
    then it moves to the new last point, or to -1 if the list is empty.  It
    emits [numPointsChanged], then [curPointChanged] if the cursor moved and
    [curPointValuesChanged] if not, then [isModifiedChanged] if the flag was
    not set. *)
Theorem removeCurrent_removes_current (s : Sequence) (c : SequencePoint) :
  isValid s = true -> point_cur s = Some c ->
  let last := m_curPoint s =? length_ (m_sequence s) - 1 in
  exists s',
    run removeCurrent s
    = Some (s', [numPointsChanged;
                 if last then curPointChanged else curPointValuesChanged]
                ++ flag_signal s)
    /\ length_ (m_sequence s') = length_ (m_sequence s) - 1
    /\ (forall j, 0 <= j ->
          point_at s' j = if j <? m_curPoint s then point_at s j
                          else point_at s (j + 1))
    /\ m_curPoint s' = (if last then m_curPoint s - 1 else m_curPoint s)
    /\ m_isModified s' = true.
Proof.
  intros Hv Hc. cbv zeta.
  pose proof Hc as Hi. apply index_Some in Hi as [Hi _].
  destruct (removeAt_defined _ _ Hi) as (l & Hl).
  pose proof (length_removeAt _ _ _ Hl) as [_ Hlen].
  rewrite (removeCurrent_at s l Hv Hl). cbv zeta. rewrite Z.geb_leb, Hlen.
  assert (E : (length_ (m_sequence s) - 1 <=? m_curPoint s)
              = (m_curPoint s =? length_ (m_sequence s) - 1)).
  { destruct (Z.leb_spec (length_ (m_sequence s) - 1) (m_curPoint s)),
      (Z.eqb_spec (m_curPoint s) (length_ (m_sequence s) - 1));
      try reflexivity; lia. }
  rewrite E. eexists. split; [reflexivity |]. fields. unfold point_at. fields.
  split; [exact Hlen |]. split; [| split; [| reflexivity]].
  - intros j Hj. apply index_removeAt; assumption.
  - destruct (Z.eqb_spec (m_curPoint s) (length_ (m_sequence s) - 1));
      [lia | reflexivity].
Qed.

End Copies.

(** ** The setters *)

Section SetterFacts.
Context {A : Type}.
Implicit Types (l : list A).

Lemma update_same l n x : nth_error l n = Some x -> update n x l = l.
Proof.
  revert n. induction l as [| y l IH]; intros [| n] H; cbn in *;
    try discriminate; [congruence | f_equal; auto].
Qed.

Lemma assign_same l i x : index l i = Some x -> assign l i x = Some l.
Proof.
  intros H. apply index_Some in H as [Hi Hn]. unfold assign.
  destruct (Z.leb_spec 0 i), (Z.ltb_spec i (length_ l)); try lia.
  cbn [andb]. f_equal. apply update_same, Hn.
Qed.

End SetterFacts.

Section Setters.
Context {impl : SequencePointImpl}.

Ltac unfold_setter :=
  unfold run, setPoint_at, setPointCoordinate_at, setDuration_at,
    setTimeToTarget_at, valuesChanged, sequenceModified, bind, this, store,
    emit, ret, defined.

Ltac record_cases s :=
  destruct s as [dim blo bhi seq cur [|]];
  cbn [m_pointDim m_min m_max m_sequence m_curPoint m_isModified
       with_sequence with_curPoint with_isModified negb orb app
       flag_signal change_signals] in *.

(** X15.  [setDuration(pos, d)] on a valid Sequence stores [d] clamped into
    [[min.duration, max.duration]] as the duration of the point at [pos] and
    leaves the coordinates and the timeToTarget of that point, every other
    point and the cursor as they were.  If the stored duration did not
    change, nothing is emitted and the modified flag is not touched;
    otherwise it emits [pointValuesChanged(pos)], [curPointValuesChanged] if
    [pos] is the cursor, and [isModifiedChanged] if the flag was not set.  A
    second call with the same arguments emits nothing. *)
Theorem setDuration_at_sets (s : Sequence) (pos d : Z) (sp : SequencePoint) :
  isValid s = true -> point_at s pos = Some sp ->
  let new := Int.std_min (maxPointDuration s)
               (Int.std_max (minPointDuration s) d) in
  let same := duration sp =? new in
  exists s',
    run (setDuration_at pos d) s
    = Some (s', if same then [] else change_signals s pos)
    /\ point_at s' pos = Some (with_duration sp new)
    /\ pointDuration_at s' pos = Some new
    /\ (forall j, j <> pos -> point_at s' j = point_at s j)
    /\ m_curPoint s' = m_curPoint s
    /\ m_isModified s' = (m_isModified s || negb same)
    /\ run (setDuration_at pos d) s' = Some (s', []).
Proof.
  intros Hv Hi. cbv zeta. unfold point_at, pointDuration_at in *.
  unfold minPointDuration, maxPointDuration.
  pose proof Hi as Hr. apply index_Some in Hr as [Hr _].
  set (new := Int.std_min (duration (m_max s))
                (Int.std_max (duration (m_min s)) d)).
  destruct (assign_defined (m_sequence s) pos (with_duration sp new) Hr)
    as (l & Hl).
  pose proof (index_assign_same _ _ _ _ Hl) as Hsame.
  assert (Hagain : assign l pos (with_duration (with_duration sp new) new)
                   = Some l) by (apply assign_same; exact Hsame).
  exists (if duration sp =? new then with_sequence l s
          else with_isModified true (with_sequence l s)).
  split; [| split; [| split; [| split; [| split; [| split]]]]].
  - unfold_setter. rewrite Hv, Hi. cbn [negb]. fold new. rewrite Hl.
    destruct (duration sp =? new); [reflexivity |].
    record_cases s; destruct (pos =? cur); reflexivity.
  - destruct (duration sp =? new); fields; exact Hsame.
  - destruct (duration sp =? new); fields; rewrite Hsame; reflexivity.
  - intros j Hj. destruct (duration sp =? new); fields;
      eapply index_assign_other; eassumption.
  - destruct (duration sp =? new); reflexivity.
  - destruct (duration sp =? new); fields;
      [rewrite orb_false_r | rewrite orb_true_r]; reflexivity.
  - unfold_setter.
    destruct (duration sp =? new); fields; unfold isValid in *; fields;
      rewrite Hv, Hsame; cbn [negb with_duration duration]; fold new;
      cbn [with_duration point duration timeToTarget] in Hagain;
      rewrite Hagain, Z.eqb_refl; record_cases s; reflexivity.
Qed.

(** X16.  [setTimeToTarget(pos, t)] on a valid Sequence stores [t] clamped
    into [[min.timeToTarget, max.timeToTarget]] as the timeToTarget of the
    point at [pos] and leaves the coordinates and the duration of that point,
    every other point and the cursor as they were.  If the stored
    timeToTarget did not change, nothing is emitted and the modified flag is
    not touched;
    otherwise it emits [pointValuesChanged(pos)], [curPointValuesChanged] if
    [pos] is the cursor, and [isModifiedChanged] if the flag was not set.  A
    second call with the same arguments emits nothing. *)
Theorem setTimeToTarget_at_sets (s : Sequence) (pos t : Z)
        (sp : SequencePoint) :
  isValid s = true -> point_at s pos = Some sp ->
  let new := Int.std_min (maxPointTimeToTarget s)
               (Int.std_max (minPointTimeToTarget s) t) in
  let same := timeToTarget sp =? new in
  exists s',
    run (setTimeToTarget_at pos t) s
    = Some (s', if same then [] else change_signals s pos)
    /\ point_at s' pos = Some (with_timeToTarget sp new)
    /\ pointTimeToTarget_at s' pos = Some new
    /\ (forall j, j <> pos -> point_at s' j = point_at s j)
    /\ m_curPoint s' = m_curPoint s
    /\ m_isModified s' = (m_isModified s || negb same)
    /\ run (setTimeToTarget_at pos t) s' = Some (s', []).
Proof.
  intros Hv Hi. cbv zeta. unfold point_at, pointTimeToTarget_at in *.
  unfold minPointTimeToTarget, maxPointTimeToTarget.
  pose proof Hi as Hr. apply index_Some in Hr as [Hr _].
  set (new := Int.std_min (timeToTarget (m_max s))
                (Int.std_max (timeToTarget (m_min s)) t)).
  destruct (assign_defined (m_sequence s) pos (with_timeToTarget sp new) Hr)
    as (l & Hl).
  pose proof (index_assign_same _ _ _ _ Hl) as Hsame.
  assert (Hagain : assign l pos
                     (with_timeToTarget (with_timeToTarget sp new) new)
                   = Some l) by (apply assign_same; exact Hsame).
  exists (if timeToTarget sp =? new then with_sequence l s
          else with_isModified true (with_sequence l s)).
  split; [| split; [| split; [| split; [| split; [| split]]]]].
  - unfold_setter. rewrite Hv, Hi. cbn [negb]. fold new. rewrite Hl.
    destruct (timeToTarget sp =? new); [reflexivity |].
    record_cases s; destruct (pos =? cur); reflexivity.
  - destruct (timeToTarget sp =? new); fields; exact Hsame.
  - destruct (timeToTarget sp =? new); fields; rewrite Hsame; reflexivity.
  - intros j Hj. destruct (timeToTarget sp =? new); fields;
      eapply index_assign_other; eassumption.
  - destruct (timeToTarget sp =? new); reflexivity.
  - destruct (timeToTarget sp =? new); fields;
      [rewrite orb_false_r | rewrite orb_true_r]; reflexivity.
  - unfold_setter.
    destruct (timeToTarget sp =? new); fields; unfold isValid in *; fields;
      rewrite Hv, Hsame; cbn [negb with_timeToTarget timeToTarget]; fold new;
      cbn [with_timeToTarget point duration timeToTarget] in Hagain;
      rewrite Hagain, Z.eqb_refl; record_cases s; reflexivity.
Qed.

(** X17.  [setPointCoordinate(pos, c, v)] on a valid Sequence stores [v]
    clamped into [[min.point[c], max.point[c]]] as coordinate [c] of the
    point at [pos] and leaves the other coordinates, the duration and the
    timeToTarget of that point, every other point and the cursor as they
    were.  If the stored coordinate compares equal ([==]) to the old one,
    nothing is emitted and the modified flag is not touched; otherwise it
    emits [pointValuesChanged(pos)], [curPointValuesChanged] if [pos] is the
    cursor, and [isModifiedChanged] if the flag was not set.  A second call
    with the same arguments emits nothing, unless the stored value is NaN. *)
Theorem setPointCoordinate_at_sets (s : Sequence) (pos c : Z) (v : double)
        (sp : SequencePoint) (old lo hi : double) :
  isValid s = true -> point_at s pos = Some sp ->
  index (point sp) c = Some old ->
  minPointCoordinate s c = Some lo -> maxPointCoordinate s c = Some hi ->
  let new := Double.std_min hi (Double.std_max lo v) in
  let same := Double.eqb old new in
  exists s' pt,
    run (setPointCoordinate_at pos c v) s
    = Some (s', if same then [] else change_signals s pos)
    /\ point_at s' pos = Some (with_point sp pt)
    /\ index pt c = Some new
    /\ (forall c', c' <> c -> index pt c' = index (point sp) c')
    /\ pointCoordinate_at s' pos c = Some new
    /\ (forall j, j <> pos -> point_at s' j = point_at s j)
    /\ m_curPoint s' = m_curPoint s
    /\ m_isModified s' = (m_isModified s || negb same)
    /\ (Double.eqb new new = true ->
        run (setPointCoordinate_at pos c v) s' = Some (s', [])).
Proof.
  intros Hv Hi Hold Hlo Hhi. cbv zeta.
  unfold point_at, pointCoordinate_at, minPointCoordinate,
    maxPointCoordinate in *.
  pose proof Hi as Hr. apply index_Some in Hr as [Hr _].
  pose proof Hold as Hc. apply index_Some in Hc as [Hc _].
  set (new := Double.std_min hi (Double.std_max lo v)).
  destruct (assign_defined (point sp) c new Hc) as (pt & Hpt).
  destruct (assign_defined (m_sequence s) pos (with_point sp pt) Hr)
    as (l & Hl).
  pose proof (index_assign_same _ _ _ _ Hl) as Hsame.
  pose proof (index_assign_same _ _ _ _ Hpt) as Hnew.
  assert (Hagain : assign l pos (with_point (with_point sp pt) pt) = Some l)
    by (apply assign_same; exact Hsame).
  assert (Hpt2 : assign pt c new = Some pt) by (apply assign_same; exact Hnew).
  exists (if Double.eqb old new then with_sequence l s
          else with_isModified true (with_sequence l s)), pt.
  split; [| split; [| split; [| split; [| split; [| split; [| split;
    [| split]]]]]]].
  - unfold_setter. rewrite Hv, Hi, Hold, Hhi, Hlo. cbn [negb]. fold new.
    rewrite Hpt, Hl.
    destruct (Double.eqb old new); [reflexivity |].
    record_cases s; destruct (pos =? cur); reflexivity.
  - destruct (Double.eqb old new); fields; exact Hsame.
  - exact Hnew.
  - intros c' Hc'. eapply index_assign_other; eassumption.
  - destruct (Double.eqb old new); fields; rewrite Hsame; exact Hnew.
  - intros j Hj. destruct (Double.eqb old new); fields;
      eapply index_assign_other; eassumption.
  - destruct (Double.eqb old new); reflexivity.
  - destruct (Double.eqb old new); fields;
      [rewrite orb_false_r | rewrite orb_true_r]; reflexivity.
  - intros Hrefl. unfold_setter.
    destruct (Double.eqb old new); fields; unfold isValid in *; fields;
      rewrite Hv, Hsame; cbn [negb with_point point]; rewrite Hnew, Hhi, Hlo;
      fold new; cbn [with_point point duration timeToTarget] in Hagain;
      rewrite Hpt2, Hagain, Hrefl; record_cases s; reflexivity.
Qed.

(** X18.  [setPoint(pos, p)] on a valid Sequence replaces the point at [pos]
    by [validatePoint(p)] and leaves every other point and the cursor as
    they were.  If the new point is [==] to the old one, nothing is emitted
    and the modified flag is not touched; otherwise it emits
    [pointValuesChanged(pos)], [curPointValuesChanged] if [pos] is the
    cursor, and [isModifiedChanged] if the flag was not set. *)
Theorem setPoint_at_sets (s : Sequence) (pos : Z) (p old q : SequencePoint) :
  isValid s = true -> point_at s pos = Some old ->
  validatePoint s p false = Some q ->
  let same := equal old q in
  exists s',
    run (setPoint_at pos p) s
    = Some (s', if same then [] else change_signals s pos)
    /\ point_at s' pos = Some q
    /\ (forall j, j <> pos -> point_at s' j = point_at s j)
    /\ length_ (m_sequence s') = length_ (m_sequence s)
    /\ m_curPoint s' = m_curPoint s
    /\ m_isModified s' = (m_isModified s || negb same).
Proof.
  intros Hv Hi Hq. cbv zeta. unfold point_at in *.
  pose proof Hi as Hr. apply index_Some in Hr as [Hr _].
  destruct (assign_defined (m_sequence s) pos q Hr) as (l & Hl).
  pose proof (index_assign_same _ _ _ _ Hl) as Hsame.
  exists (if equal old q then with_sequence l s
          else with_isModified true (with_sequence l s)).
  split; [| split; [| split; [| split; [| split]]]].
  - unfold_setter. rewrite Hv, Hi, Hq. cbn [negb]. rewrite Hl.
    destruct (equal old q); [reflexivity |].
    record_cases s; destruct (pos =? cur); reflexivity.
  - destruct (equal old q); fields; exact Hsame.
  - intros j Hj. destruct (equal old q); fields;
      eapply index_assign_other; eassumption.
  - destruct (equal old q); fields; eapply length_assign; eassumption.
  - destruct (equal old q); reflexivity.
  - destruct (equal old q); fields;
      [rewrite orb_false_r | rewrite orb_true_r]; reflexivity.
Qed.

End Setters.

(** ** Persistence, once more, and the owner *)

Section MorePersistence.
Context {impl : SequencePointImpl}.

(** X19.  [save()] twice in a row returns the same document both times, the
    second call changing nothing; a call changes nothing of the object but
    the modified flag, which it clears without a signal, and on an invalid
    Sequence it returns the null document and leaves even the flag. *)
Theorem save_twice (s : Sequence) :
  exists doc,
    let s1 := if isValid s then with_isModified false s else s in
    save s = Some (doc, s1, [])
    /\ save s1 = Some (doc, s1, [])
    /\ (isValid s = false -> doc = DocNull).
Proof.
  unfold save, bind, this, store, ret.
  destruct (isValid s) eqn:Hv; cbn [negb].
  - eexists. cbv zeta. split; [reflexivity |].
    unfold isValid in *. fields. rewrite Hv. cbn [negb].
    split; [reflexivity | discriminate].
  - eexists. cbv zeta. rewrite Hv. cbn [negb]. repeat split.
Qed.

Lemma load_cases json :
  load json = Some Sequence_default
  \/ exists p0 ps l',
       load json
       = Some (with_curPoint (if isEmpty (tl ps) then -1 else 0)
                 (with_sequence l'
                    (Sequence_new (List.length (point p0)) p0
                                  (hd SequencePoint_new ps)))).
Proof.
  destruct json as [| a | o]; try (left; reflexivity).
  destruct (parsed a) as [[| p0 ps] |] eqn:Hp.
  - apply parsed_nil in Hp as ->. left. reflexivity.
  - destruct (uniform (-1) (p0 :: ps)) eqn:Hu.
    + destruct (load_points a p0 ps Hp Hu) as (l' & E & _).
      right. exists p0, ps, l'. exact E.
    + left. unfold load. rewrite load_loop_spec, Hp. cbn [l_dim].
      rewrite Hu. reflexivity.
  - left. unfold load. rewrite load_loop_spec, Hp. reflexivity.
Qed.

(** X20.  [load] makes no access outside a list or a vector, whatever the
    document is.  The Sequence it returns has bounds of [pointDim]
    coordinates, stored points that [validatePoint] returns unchanged (so
    each has [pointDim] coordinates), a cursor that is 0 on a non-empty list
    and -1 on an empty one, and a modified flag that is false. *)
Theorem load_is_safe (json : QJsonDocument) :
  exists s,
    load json = Some s
    /\ bounds_formed s = true
    /\ Forall (fun p => validatePoint s p false = Some p) (m_sequence s)
    /\ m_curPoint s = (if isEmpty (m_sequence s) then -1 else 0)
    /\ m_isModified s = false.
Proof.
  assert (H : exists s, load json = Some s
                        /\ m_curPoint s
                           = (if isEmpty (m_sequence s) then -1 else 0)
                        /\ m_isModified s = false).
  { destruct json as [| a | o];
      try (eexists; split; [reflexivity | split; reflexivity]).
    destruct (parsed a) as [[| p0 ps] |] eqn:Hp.
    - apply parsed_nil in Hp as ->. eexists.
      split; [reflexivity | split; reflexivity].
    - destruct (uniform (-1) (p0 :: ps)) eqn:Hu.
      + destruct (load_points a p0 ps Hp Hu) as (l' & E & Hall).
        eexists. split; [exact E |]. fields. split; [| reflexivity].
        apply Forall2_length in Hall.
        destruct (tl ps), l'; try discriminate Hall; reflexivity.
      + eexists. unfold load. rewrite load_loop_spec, Hp. cbn [l_dim].
        rewrite Hu. split; [reflexivity | split; reflexivity].
    - eexists. unfold load. rewrite load_loop_spec, Hp.
      split; [reflexivity | split; reflexivity]. }
  destruct H as (s & E & Hc & Hm). exists s.
  split; [exact E |]. split; [eapply load_bounds_formed, E |].
  split; [eapply load_canonical, E |]. split; assumption.
Qed.

Lemma run_seq (a b : Op unit) s :
  run (a ;; b) s
  = match run a s with
    | Some (s1, e1) =>
        match run b s1 with
        | Some (s2, e2) => Some (s2, e1 ++ e2)
        | None => None
        end
    | None => None
    end.
Proof.
  unfold run, bind. destruct (a s) as [[[[] s1] e1] |]; [| reflexivity].
  destruct (b s1) as [[[[] s2] e2] |]; reflexivity.
Qed.

Lemma append_default s d p :
  isValid s = true -> m_curPoint s = -1 ->
  defaultSequencePoint s = Some d -> validatePoint s d false = Some p ->
  run append s
  = Some (with_isModified true
            (with_curPoint (length_ (m_sequence s))
               (with_sequence (m_sequence s ++ [p]) s)),
          [numPointsChanged; curPointChanged] ++ flag_signal s).
Proof.
  intros Hv Hc Hd Hp.
  unfold run, append, sequenceModified, bind, this, store, emit, ret, defined.
  rewrite Hv, Hc. cbn [negb]. change (-1 =? -1) with true. cbv iota.
  rewrite Hd. cbv beta iota. rewrite Hp.
  revert Hc.
  destruct s as [dim lo hi l cur [|]];
    cbn [m_sequence m_curPoint m_isModified with_sequence with_curPoint
         with_isModified negb app flag_signal];
    intros ->; rewrite length_snoc, Z.add_simpl_r; reflexivity.
Qed.

Lemma Sequencer_setPoint (p1 : SequencePoint) :
  run (setPoint Sequencer_seed)
      (mkSequence 3 Sequencer_minPoint Sequencer_maxPoint [p1] 0 true)
  = Some (mkSequence 3 Sequencer_minPoint Sequencer_maxPoint
                     [Sequencer_seed] 0 true,
          if equal p1 Sequencer_seed then []
          else [pointValuesChanged 0; curPointValuesChanged]).
Proof.
  unfold run, setPoint, setPoint_at, valuesChanged, sequenceModified, bind,
    this, store, emit, ret, defined.
  cbn [isValid m_pointDim Nat.eqb negb m_curPoint Z.ltb Z.compare].
  match goal with
  | |- context [validatePoint ?s Sequencer_seed false] =>
      replace (validatePoint s Sequencer_seed false)
        with (Some Sequencer_seed) by (vm_compute; reflexivity)
  end.
  cbn [m_sequence].
  change (index [p1] 0) with (Some p1).
  change (assign [p1] 0 Sequencer_seed) with (Some [Sequencer_seed]).
  cbv beta iota. cbn [m_sequence m_curPoint m_isModified].
  destruct (equal p1 Sequencer_seed); reflexivity.
Qed.

(** X21.  The Sequence the [Sequencer] constructor builds (sequencer.cpp):
    dimension 3, the bounds [{-1, 40, -36; 3; 1}] and
    [{4, 230, 75; 3000; 10000}], which are ordered, and exactly one stored
    point, the seed [{2.5, 53.0, 19.7; 100; 300}] unchanged by the clamp,
    with the cursor on it and the modified flag set, whatever the default
    duration and time to target of a [SequencePoint] are.  [append()] emits
    [numPointsChanged], [curPointChanged] and [isModifiedChanged] first. *)
Theorem Sequencer_initial_sequence :
  exists e,
    Sequencer_new
    = Some (mkSequence 3 Sequencer_minPoint Sequencer_maxPoint
                       [Sequencer_seed] 0 true,
            [numPointsChanged; curPointChanged; isModifiedChanged] ++ e)
    /\ bounds_ordered (Sequence_new 3 Sequencer_minPoint Sequencer_maxPoint)
       = true.
Proof.
  set (s0 := Sequence_new 3 Sequencer_minPoint Sequencer_maxPoint).
  assert (Hf : bounds_formed s0 = true) by reflexivity.
  destruct (defaultSequencePoint_defined s0 Hf) as (d & Hd).
  destruct (validatePoint_within s0 d Hf) as (p & Hp & _).
  unfold Sequencer_new. fold s0. rewrite run_seq.
  rewrite (append_default s0 d p eq_refl eq_refl Hd Hp).
  change (with_isModified true
            (with_curPoint (length_ (m_sequence s0))
               (with_sequence (m_sequence s0 ++ [p]) s0)))
    with (mkSequence 3 Sequencer_minPoint Sequencer_maxPoint [p] 0 true).
  rewrite Sequencer_setPoint. eexists.
  split; [reflexivity | vm_compute; reflexivity].
Qed.

End MorePersistence.

(** ** The current point *)

Section CurrentPoint.
Context {impl : SequencePointImpl}.

(** X22.  Access to the current point of a reachable Sequence.  With no
    stored point, [point()] would read outside the list and the four setters
    of the current point return at once.  With a stored point there is a
    current point of [pointDim] coordinates; [pointDuration()],
    [pointTimeToTarget()] and [pointCoordinate(c)] return its fields, the
    last for every [c] from 0 to [pointDim - 1] and for no other. *)
Theorem reachable_current_point (s : Sequence) :
  reachable s ->
  (m_sequence s = [] ->
   point_cur s = None
   /\ forall p c v d t,
        run (setPoint p) s = Some (s, [])
        /\ run (setPointCoordinate c v) s = Some (s, [])
        /\ run (setDuration d) s = Some (s, [])
        /\ run (setTimeToTarget t) s = Some (s, []))
  /\ (m_sequence s <> [] ->
      exists sp,
        point_cur s = Some sp
        /\ List.length (point sp) = m_pointDim s
        /\ pointDuration s = Some (duration sp)
        /\ pointTimeToTarget s = Some (timeToTarget sp)
        /\ (forall c, pointCoordinate s c = index (point sp) c)
        /\ (forall c, 0 <= c < Z.of_nat (m_pointDim s) <->
                      exists v, pointCoordinate s c = Some v)).
Proof.
  intros Hr. pose proof (reachable_cursor_ok s Hr) as Hc.
  destruct (cursor_ok_cases s Hc) as [[Hcur Hnil] | Hcur].
  - split; [intros _ | intros Hne; contradiction].
    split; [unfold point_cur; rewrite Hnil, Hcur; reflexivity |].
    intros p c v d t.
    unfold run, setPoint, setPointCoordinate, setDuration, setTimeToTarget,
      bind, this.
    rewrite Hcur. repeat split.
  - split.
    { intros Hnil. rewrite Hnil in Hcur. cbn in Hcur. lia. }
    intros _. destruct (index_defined _ _ Hcur) as (sp & Hi).
    assert (Hlen : List.length (point sp) = m_pointDim s).
    { apply canonical_length. unfold canonical.
      apply reachable_current_canonical; assumption. }
    assert (Hcoord : forall c, pointCoordinate s c = index (point sp) c).
    { intros c. unfold pointCoordinate, pointCoordinate_at.
      destruct (Z.ltb_spec (m_curPoint s) 0); [lia |]. rewrite Hi.
      reflexivity. }
    exists sp. split; [exact Hi |]. split; [exact Hlen |].
    unfold pointDuration, pointTimeToTarget, pointDuration_at,
      pointTimeToTarget_at.
    destruct (Z.ltb_spec (m_curPoint s) 0); [lia |]. rewrite Hi.
    split; [reflexivity |]. split; [reflexivity |].
    split; [exact Hcoord |].
    intros c. rewrite Hcoord, <- Hlen. split.
    + intros Hin. apply index_defined. exact Hin.
    + intros (v & Hv). apply index_Some in Hv as [Hv _]. exact Hv.
Qed.

End CurrentPoint.

(** ** The further properties at the examples *)

(** The stored point of [example_one], and the invalid Sequence of the
    default constructor. *)
Lemma example_one_current :
  point_cur example_one
  = Some (mkPoint [Double.of_int 5; Double.zero; Double.of_int 10] 7 100).
Proof. reflexivity. Qed.

Lemma validatePoint_idempotent_witness :
  bounds_formed example_one = true
  /\ exists q,
       validatePoint example_one (mkPoint [S754_nan] 1000 (-5)) false = Some q
       /\ List.length (point q) = m_pointDim example_one
       /\ validatePoint example_one q false = Some q.
Proof.
  assert (Hf : bounds_formed example_one = true) by holds.
  split; [exact Hf |].
  exact (validatePoint_idempotent example_one
           (mkPoint [S754_nan] 1000 (-5)) Hf).
Defined.

Lemma reachable_points_validated_witness :
  @reachable impl0 example_one
  /\ Forall (fun p => List.length (point p) = m_pointDim example_one
                      /\ validatePoint example_one p false = Some p)
            (m_sequence example_one).
Proof.
  split; [exact example_one_reachable |].
  exact (proj1 (@reachable_points_validated impl0 example_one
                  example_one_reachable)).
Defined.


Lemma reachable_round_trip_witness :
  (forall p, ints_of_point p = true ->
             @fromJson impl0 (@toJson impl0 p) = Some p)
  /\ @reachable impl0 example_one
  /\ isValid example_one = true /\ ints_of_sequence example_one = true
  /\ exists doc,
       @save impl0 example_one
       = Some (doc, with_isModified false example_one, [])
       /\ @load impl0 doc = Some (with_isModified false example_one).
Proof.
  assert (Hv : isValid example_one = true) by holds.
  assert (Hi : ints_of_sequence example_one = true) by holds.
  split; [exact modelled_fromJson_toJson |].
  split; [exact example_one_reachable |].
  repeat (split; [assumption |]).
  exact (@reachable_round_trip impl0 modelled_fromJson_toJson example_one
           example_one_reachable Hv Hi).
Defined.

Lemma invalid_calls_do_nothing_witness :
  isValid (@Sequence_default impl0) = false
  /\ run (@call impl0 Append) (@Sequence_default impl0)
     = Some (@Sequence_default impl0, []).
Proof.
  assert (Hv : isValid (@Sequence_default impl0) = false) by holds.
  split; [exact Hv |].
  apply (@invalid_calls_do_nothing impl0 Append _ Hv).
  intros p. discriminate.
Defined.

Lemma calls_keep_bounds_witness :
  run (@call impl0 Clear) example_one
  = Some (mkSequence 3 example_min example_max [] (-1) true,
          [numPointsChanged; curPointChanged])
  /\ forall c,
       minPointCoordinate
         (mkSequence 3 example_min example_max [] (-1) true) c
       = minPointCoordinate example_one c.
Proof.
  assert (E : run (@call impl0 Clear) example_one
              = Some (mkSequence 3 example_min example_max [] (-1) true,
                      [numPointsChanged; curPointChanged])) by holds.
  split; [exact E |].
  exact (proj1 (proj2 (proj2 (proj2
           (@calls_keep_bounds impl0 Clear example_one _ _ E))))).
Defined.

Lemma calls_and_modified_flag_witness :
  run (@call impl0 Append) example_empty
  = Some (mkSequence 3 example_min example_max
            [mkPoint [Double.of_int 5; Double.of_int 5; Double.of_int 5]
                     50 0] 0 true,
          [numPointsChanged; curPointChanged; isModifiedChanged])
  /\ (In isModifiedChanged
         [numPointsChanged; curPointChanged; isModifiedChanged] <->
      m_isModified example_empty = false /\ true = true).
Proof.
  assert (E : run (@call impl0 Append) example_empty
              = Some (mkSequence 3 example_min example_max
                        [mkPoint [Double.of_int 5; Double.of_int 5;
                                  Double.of_int 5] 50 0] 0 true,
                      [numPointsChanged; curPointChanged;
                       isModifiedChanged])) by holds.
  split; [exact E |].
  exact (proj1 (proj2
           (@calls_and_modified_flag impl0 Append example_empty _ _ E))).
Defined.

Lemma insertAfterCurrent_removeCurrent_witness :
  isValid example_one = true /\ bounds_formed example_one = true
  /\ cursor_ok example_one = true
  /\ run (@call2 impl0 InsertAfterCurrent RemoveCurrent) example_one
     = Some (example_one,
             [numPointsChanged; curPointChanged; numPointsChanged;
              curPointChanged]).
Proof.
  assert (Hv : isValid example_one = true) by holds.
  assert (Hf : bounds_formed example_one = true) by holds.
  assert (Hc : cursor_ok example_one = true) by holds.
  repeat (split; [assumption |]).
  exact (@insertAfterCurrent_removeCurrent impl0 example_one Hv Hf Hc).
Defined.

Lemma insertBeforeCurrent_removeCurrent_witness :
  isValid example_one = true /\ bounds_formed example_one = true
  /\ cursor_ok example_one = true
  /\ exists e,
       run (@call2 impl0 InsertBeforeCurrent RemoveCurrent) example_one
       = Some (example_one, e).
Proof.
  assert (Hv : isValid example_one = true) by holds.
  assert (Hf : bounds_formed example_one = true) by holds.
  assert (Hc : cursor_ok example_one = true) by holds.
  repeat (split; [assumption |]).
  exact (@insertBeforeCurrent_removeCurrent impl0 example_one Hv Hf Hc).
Defined.

Lemma append_copies_current_witness :
  @reachable impl0 example_one /\ isValid example_one = true
  /\ run (@append impl0) example_one
     = Some (mkSequence 3 example_min example_max
               (m_sequence example_one ++ m_sequence example_one) 1 true,
             [numPointsChanged; curPointChanged]).
Proof.
  assert (Hv : isValid example_one = true) by holds.
  split; [exact example_one_reachable |]. split; [exact Hv |].
  exact (@append_copies_current impl0 example_one _ example_one_reachable Hv
           example_one_current).
Defined.

Lemma insertAfterCurrent_copies_current_witness :
  @reachable impl0 example_one /\ isValid example_one = true
  /\ exists s',
       run (@insertAfterCurrent impl0) example_one
       = Some (s', [numPointsChanged; curPointChanged])
       /\ m_sequence s' = m_sequence example_one ++ m_sequence example_one
       /\ m_curPoint s' = 1.
Proof.
  assert (Hv : isValid example_one = true) by holds.
  split; [exact example_one_reachable |]. split; [exact Hv |].
  destruct (@insertAfterCurrent_copies_current impl0 example_one _
              example_one_reachable Hv example_one_current)
    as (s' & E & Hl & Hc & _).
  exists s'. split; [exact E |]. split; [exact Hl | exact Hc].
Defined.

Lemma insertBeforeCurrent_copies_current_witness :
  @reachable impl0 example_one /\ isValid example_one = true
  /\ exists s',
       run (@insertBeforeCurrent impl0) example_one
       = Some (s', [numPointsChanged; curPointValuesChanged])
       /\ m_sequence s' = m_sequence example_one ++ m_sequence example_one
       /\ m_curPoint s' = 0.
Proof.
  assert (Hv : isValid example_one = true) by holds.
  split; [exact example_one_reachable |]. split; [exact Hv |].
  destruct (@insertBeforeCurrent_copies_current impl0 example_one _
              example_one_reachable Hv example_one_current)
    as (s' & E & Hl & Hc & _).
  exists s'. split; [exact E |]. split; [exact Hl | exact Hc].
Defined.

Lemma removeCurrent_removes_current_witness :
  isValid example_one = true
  /\ exists s',
       run removeCurrent example_one
       = Some (s', [numPointsChanged; curPointChanged])
       /\ length_ (m_sequence s') = 0
       /\ m_curPoint s' = -1.
Proof.
  assert (Hv : isValid example_one = true) by holds.
  split; [exact Hv |].
  destruct (removeCurrent_removes_current example_one _ Hv
              example_one_current)
    as (s' & E & Hl & _ & Hc & _).
  exists s'. split; [exact E |]. split; [exact Hl | exact Hc].
Defined.

Lemma setDuration_at_sets_witness :
  isValid example_one = true
  /\ exists s',
       run (setDuration_at 0 1000) example_one
       = Some (s', [pointValuesChanged 0; curPointValuesChanged])
       /\ pointDuration_at s' 0 = Some 100
       /\ run (setDuration_at 0 1000) s' = Some (s', []).
Proof.
  assert (Hv : isValid example_one = true) by holds.
  split; [exact Hv |].
  destruct (setDuration_at_sets example_one 0 1000 _ Hv example_one_current)
    as (s' & E & _ & Hd & _ & _ & _ & Hagain).
  exists s'. split; [exact E |]. split; [exact Hd | exact Hagain].
Defined.

Lemma setTimeToTarget_at_sets_witness :
  isValid example_one = true
  /\ exists s',
       run (setTimeToTarget_at 0 (-4)) example_one
       = Some (s', [pointValuesChanged 0; curPointValuesChanged])
       /\ pointTimeToTarget_at s' 0 = Some 0
       /\ run (setTimeToTarget_at 0 (-4)) s' = Some (s', []).
Proof.
  assert (Hv : isValid example_one = true) by holds.
  split; [exact Hv |].
  destruct (setTimeToTarget_at_sets example_one 0 (-4) _ Hv
              example_one_current)
    as (s' & E & _ & Hd & _ & _ & _ & Hagain).
  exists s'. split; [exact E |]. split; [exact Hd | exact Hagain].
Defined.

Lemma setPointCoordinate_at_sets_witness :
  isValid example_one = true
  /\ exists s',
       run (setPointCoordinate_at 0 1 (Double.of_int 20)) example_one
       = Some (s', [pointValuesChanged 0; curPointValuesChanged])
       /\ pointCoordinate_at s' 0 1 = Some (Double.of_int 10)
       /\ pointCoordinate_at s' 0 0 = Some (Double.of_int 5).
Proof.
  assert (Hv : isValid example_one = true) by holds.
  split; [exact Hv |].
  destruct (setPointCoordinate_at_sets example_one 0 1 (Double.of_int 20)
              _ Double.zero Double.zero (Double.of_int 10) Hv
              example_one_current eq_refl eq_refl eq_refl)
    as (s' & pt & E & Hp & Hn & Ho & Hc & _).
  exists s'. split; [exact E |]. split; [exact Hc |].
  unfold pointCoordinate_at. unfold point_at in Hp. rewrite Hp.
  cbn [point with_point]. rewrite (Ho 0) by discriminate. reflexivity.
Defined.

Lemma setPoint_at_sets_witness :
  isValid example_one = true
  /\ validatePoint example_one example_max false = Some example_max
  /\ exists s',
       run (@setPoint_at impl0 0 example_max) example_one
       = Some (s', [pointValuesChanged 0; curPointValuesChanged])
       /\ point_at s' 0 = Some example_max.
Proof.
  assert (Hv : isValid example_one = true) by holds.
  assert (Hq : validatePoint example_one example_max false
               = Some example_max) by holds.
  split; [exact Hv |]. split; [exact Hq |].
  destruct (@setPoint_at_sets impl0 example_one 0 example_max _ _ Hv
              example_one_current Hq)
    as (s' & E & Hp & _).
  exists s'. split; [exact E | exact Hp].
Defined.

Lemma reachable_current_point_witness :
  @reachable impl0 example_one
  /\ m_sequence example_one <> []
  /\ exists sp,
       point_cur example_one = Some sp
       /\ pointDuration example_one = Some (duration sp)
       /\ pointTimeToTarget example_one = Some (timeToTarget sp).
Proof.
  assert (Hne : m_sequence example_one <> []) by discriminate.
  split; [exact example_one_reachable |]. split; [exact Hne |].
  destruct (proj2 (@reachable_current_point impl0 example_one
                     example_one_reachable) Hne)
    as (sp & Hi & _ & Hd & Ht & _).
  exists sp. split; [exact Hi |]. split; [exact Hd | exact Ht].
Defined.
